(** * Attendance submission pipeline (websitee/frontend/src/AttendanceProcessor.js)

    A shallow embedding of the bounded queue [AttendanceQueue], of the hook
    functions [processQueueAttendance], [processBatchAttendance] and
    [processAttendance], and of the documented server-side retry loop
    [markSingleAttendance] (TECHNICAL_REPORT.md), with the properties the
    design document states about them.

    JavaScript's event loop is modelled by explicit state passing: a [World]
    holds the queue object, the tasks that were started and whose
    continuation has not run yet, the pending [setTimeout] callbacks, the
    promise table and the log of observable effects.  Every synchronous
    stretch of code (a method call up to its first [await], or the
    continuation after an [await]) is one atomic function on worlds; the order
    in which the suspended pieces resume is chosen by a schedule, and the
    replies of the network by the environment.

    Conventions.  Users are records with a [name] and a [stuId] (a [null]
    entry in [users] is outside the model); cookies and response bodies are
    arbitrary JavaScript values; JSON numbers are integers.  React's state
    setters, [console], [alert] and [fetch] are recorded in the log in
    program order; the index carried by a [Fetch] names the user on whose
    behalf the request is sent and is not part of the request. *)

From Stdlib Require Import ZArith Lia Bool.
From stdpp Require Import base list strings pretty.

#[local] Set Warnings "-register-all".

Local Open Scope string_scope.
Local Open Scope list_scope.
Local Open Scope Z_scope.

(** ** JavaScript values *)

Inductive jsval :=
| VUndefined
| VNull
| VBool (b : bool)
| VNum (z : Z)
| VStr (s : string)
| VArr (xs : list jsval)
| VObj (fields : list (string * jsval)).

(** [v.k]: a [TypeError] ([None]) on [undefined] and [null]; the own field
    of an object; [undefined] on every other value (the keys read by the
    program are not properties of the primitive wrappers or of arrays). *)
Definition member (v : jsval) (k : string) : option jsval :=
  match v with
  | VUndefined | VNull => None
  | VObj fields =>
      Some (match find (fun kv => String.eqb (fst kv) k) fields with
            | Some kv => snd kv
            | None => VUndefined
            end)
  | _ => Some VUndefined
  end.

(** [v?.k] *)
Definition opt_member (v : jsval) (k : string) : jsval :=
  match member v k with
  | Some x => x
  | None => VUndefined
  end.

(** [!!v] *)
Definition truthy (v : jsval) : bool :=
  match v with
  | VUndefined | VNull => false
  | VBool b => b
  | VNum z => negb (z =? 0)
  | VStr s => negb (String.eqb s "")
  | VArr _ | VObj _ => true
  end.

(** [v === 'literal'] *)
Definition is_str (v : jsval) (lit : string) : bool :=
  match v with
  | VStr s => String.eqb s lit
  | _ => false
  end.

(** [`${v}`] (numbers are integers here) *)
Fixpoint to_display (v : jsval) : string :=
  match v with
  | VUndefined => "undefined"
  | VNull => "null"
  | VBool true => "true"
  | VBool false => "false"
  | VNum z => pretty z
  | VStr s => s
  | VArr xs =>
      (fix join (l : list jsval) : string :=
         match l with
         | [] => ""
         | x :: r =>
             let here := match x with
                         | VUndefined | VNull => ""
                         | _ => to_display x
                         end in
             match r with
             | [] => here
             | _ => here +:+ "," +:+ join r
             end
         end) xs
  | VObj _ => "[object Object]"
  end.

(** [a || b] *)
Definition js_or (a b : jsval) : jsval := if truthy a then a else b.

(** ** Data model *)

Record User := { name : string; stuId : string }.

Record Result := { rname : jsval; status : string; code : jsval }.

Record Snapshot := { completed : Z; snap_total : Z; result : Result }.

(** How a promise settles. *)
Inductive Settled (A : Type) :=
| Fulfilled (v : A)
| Rejected (reason : string).
Arguments Fulfilled {A} v.
Arguments Rejected {A} reason.

(** Observable effects, in program order. *)
Inductive Effect :=
| Alert (msg : string)
| ConsoleLog (msg : string)
| ConsoleError (msg : string)
| SetIsProcessing (b : bool)
| SetProgress (done_ all_ : jsval)
| SetResults (rs : list Result)
| SetResultAt (index : nat) (r : Result)
| Fetch (url : string) (index : option nat) (body : jsval).

(** An async thunk handed to the queue: what it does synchronously when it
    is called, what it does when it resumes, and how its promise settles. *)
Record Task := {
  t_start : list Effect;
  t_finish : list Effect;
  t_outcome : Settled Result
}.

(** ** class AttendanceQueue *)

Module AttendanceQueue.

(** A queue entry [{ task, resolve, reject }]; [resolve] and [reject] are
    the two halves of the promise [promise] of the promise table. *)
Record Entry := { task : Task; promise : nat }.

Record t := {
  concurrency : Z;
  delay : Z;
  queue : list Entry;
  running : Z;
  results : list Result;
  onProgress : option (Snapshot -> list Effect)
}.

Definition constructor (concurrency delayBetweenRequests : Z) : t :=
  {| concurrency := concurrency; delay := delayBetweenRequests;
     queue := []; running := 0; results := []; onProgress := None |}.

Record World := {
  this : t;
  in_flight : list Entry;
  timers : nat;
  promises : list (option (Settled Result));
  log : list Effect
}.

Definition boot (q : t) : World :=
  {| this := q; in_flight := []; timers := 0; promises := []; log := [] |}.

Definition with_this (f : t -> t) (w : World) : World :=
  {| this := f (this w); in_flight := in_flight w; timers := timers w;
     promises := promises w; log := log w |}.

Definition emit (fx : list Effect) (w : World) : World :=
  {| this := this w; in_flight := in_flight w; timers := timers w;
     promises := promises w; log := log w ++ fx |}.

Definition setProgressCallback (callback : Snapshot -> list Effect) : World -> World :=
  with_this (fun q =>
    {| concurrency := concurrency q; delay := delay q; queue := queue q;
       running := running q; results := results q;
       onProgress := Some callback |}).

Definition clear : World -> World :=
  with_this (fun q =>
    {| concurrency := concurrency q; delay := delay q; queue := [];
       running := 0; results := []; onProgress := onProgress q |}).

(** [process()] up to its [await]: the guard, [running++], [shift()] and
    the call [task()], which runs the task's synchronous prefix. *)
Definition process (w : World) : World :=
  let q := this w in
  if (concurrency q <=? running q) || (Z.of_nat (length (queue q)) =? 0) then w
  else
    match queue q with
    | [] => w
    | e :: rest =>
        {| this := {| concurrency := concurrency q; delay := delay q;
                      queue := rest; running := running q + 1;
                      results := results q; onProgress := onProgress q |};
           in_flight := in_flight w ++ [e];
           timers := timers w;
           promises := promises w;
           log := log w ++ t_start (task e) |}
    end.

(** [add(task)]: a new promise, [queue.push], [process()]. *)
Definition add (tk : Task) (w : World) : nat * World :=
  let p := length (promises w) in
  let q := this w in
  (p, process
        {| this := {| concurrency := concurrency q; delay := delay q;
                      queue := queue q ++ [{| task := tk; promise := p |}];
                      running := running q;
                      results := results q; onProgress := onProgress q |};
           in_flight := in_flight w;
           timers := timers w;
           promises := promises w ++ [None];
           log := log w |}).

(** A promise settles once: later [resolve]/[reject] calls are ignored. *)
Definition settle_promise (p : nat) (o : Settled Result)
    (ps : list (option (Settled Result))) : list (option (Settled Result)) :=
  match ps !! p with
  | Some None => <[p := Some o]> ps
  | _ => ps
  end.

(** The rest of [process()] once [await task()] resumes for entry [e]:
    [resolve(result)] and the progress callback, or [reject(error)];
    then the [finally] block. *)
Definition resume (e : Entry) (w : World) : World :=
  let q := this w in
  let w1 :=
    {| this := q; in_flight := in_flight w; timers := timers w;
       promises := settle_promise (promise e) (t_outcome (task e)) (promises w);
       log := log w ++ t_finish (task e) ++
              match t_outcome (task e), onProgress q with
              | Fulfilled r, Some callback =>
                  callback {| completed := Z.of_nat (length (results q)) + 1;
                              snap_total := Z.of_nat (length (results q))
                                            + Z.of_nat (length (queue q))
                                            + running q;
                              result := r |}
              | _, _ => []
              end |} in
  let q' := {| concurrency := concurrency q; delay := delay q;
               queue := queue q; running := running q - 1;
               results := results q; onProgress := onProgress q |} in
  if 0 <? Z.of_nat (length (queue q')) then
    {| this := q'; in_flight := in_flight w1; timers := S (timers w1);
       promises := promises w1; log := log w1 |}
  else
    process {| this := q'; in_flight := in_flight w1; timers := timers w1;
               promises := promises w1; log := log w1 |}.

(** A pending [setTimeout(() => this.process(), this.delay)] fires. *)
Definition fire (w : World) : World :=
  match timers w with
  | O => w
  | S n =>
      process {| this := this w; in_flight := in_flight w; timers := n;
                 promises := promises w; log := log w |}
  end.

(** The [k]-th started task settles and its continuation runs. *)
Definition settle (k : nat) (w : World) : World :=
  match in_flight w !! k with
  | None => w
  | Some e =>
      resume e {| this := this w; in_flight := delete k (in_flight w);
                  timers := timers w; promises := promises w; log := log w |}
  end.

End AttendanceQueue.
Import AttendanceQueue.

(** What the hook's functions return: [{ success, total, successful, failed,
    results }], or [{ success, error, results }]; an absent field reads
    [undefined]. *)
Record Report := {
  success : bool;
  total : jsval;
  successful : jsval;
  failed : jsval;
  error : jsval;
  results : list Result
}.

(** ** The event loop around the queue *)

(** What can happen to a queue between two synchronous stretches: a caller
    adds a task, installs a callback or clears the queue, a started task
    settles, a timer fires. *)
Inductive Event :=
| EvAdd (tk : Task)
| EvSetProgressCallback (callback : Snapshot -> list Effect)
| EvClear
| EvSettle (k : nat)
| EvTimer.

Definition step (ev : Event) (w : World) : World :=
  match ev with
  | EvAdd tk => snd (add tk w)
  | EvSetProgressCallback callback => setProgressCallback callback w
  | EvClear => clear w
  | EvSettle k => settle k w
  | EvTimer => fire w
  end.

Fixpoint exec (tr : list Event) (w : World) : World :=
  match tr with
  | [] => w
  | ev :: rest => exec rest (step ev w)
  end.

(** [clear()] is only called while no started task is pending. *)
Fixpoint clears_at_rest (tr : list Event) (w : World) : bool :=
  match tr with
  | [] => true
  | ev :: rest =>
      match ev with
      | EvClear => Nat.eqb (length (in_flight w)) 0
      | _ => true
      end && clears_at_rest rest (step ev w)
  end.

(** One turn of the event loop while a caller awaits: the schedule's number
    [c] selects one of the enabled resumptions, a started task or (last) a
    timer; with nothing enabled the world stays as it is. *)
Definition turn (c : nat) (w : World) : World :=
  let m := length (in_flight w) in
  let n := (m + match timers w with O => 0 | S _ => 1 end)%nat in
  match n with
  | O => w
  | S _ => let c' := (c mod n)%nat in
           if (c' <? m)%nat then settle c' w else fire w
  end.

(** [Promise.allSettled(tasks)] once every promise has settled. *)
Definition allSettled (tasks : list nat) (w : World) : option (list (Settled Result)) :=
  mapM (fun p => mjoin (promises w !! p)) tasks.

(** [await Promise.allSettled(tasks)]: turns of the event loop until the
    promises have all settled; [None] when the fuel runs out first. *)
Fixpoint await_allSettled (fuel : nat) (sched : nat -> nat) (tick : nat)
    (tasks : list nat) (w : World) : option (list (Settled Result) * World) :=
  match allSettled tasks w with
  | Some rs => Some (rs, w)
  | None =>
      match fuel with
      | O => None
      | S fuel' => await_allSettled fuel' sched (S tick) tasks (turn (sched tick) w)
      end
  end.

(** ** The hook: useAttendanceProcessor *)

(** How one [fetch] of the per-user endpoint ends: it rejects, or it yields
    a response whose body parses ([Some]) or does not ([None]). *)
Inductive FetchOutcome :=
| NetworkError
| Response (body : option jsval).

(** How the one [fetch] of the batch endpoint ends. *)
Inductive BatchOutcome :=
| BatchNetworkError
| BatchResponse (ok : bool) (statusText : string) (body : option jsval).

(** The environment of one invocation: the reply to the request of each
    input index and to the batch request, the order of resumptions, the number of turns waited. *)
Record Env := {
  replies : nat -> FetchOutcome;
  batch_reply : BatchOutcome;
  sched : nat -> nat;
  fuel : nat
}.

(** The hook's queue: [new AttendanceQueue(3, 300)]. *)
Definition hook_queue : AttendanceQueue.t := constructor 3 300.

Definition progress_callback (progressData : Snapshot) : list Effect :=
  [SetProgress (VNum (completed progressData)) (VNum (snap_total progressData))].

(** The async task of one user (lines 160-223). *)
Definition attendanceTask (user : User) (index : nat) (attendanceId : string)
    (userCookies : list jsval) (reply : FetchOutcome) : Task :=
  let userCookie := default VUndefined (userCookies !! index) in
  if negb (truthy userCookie) then
    let result := {| rname := VStr (name user);
                     status := "❌ No session cookie";
                     code := VStr "COOKIE_ERROR" |} in
    {| t_start := [SetResultAt index result];
       t_finish := [];
       t_outcome := Fulfilled result |}
  else
    let request :=
      Fetch "/api/mark-attendance" (Some index)
            (VObj [("stuId", VStr (stuId user));
                   ("attendanceId", VStr attendanceId);
                   ("cookie", userCookie)]) in
    match reply with
    | Response body =>
        let data := match body with Some d => d | None => VObj [] end in
        let code := opt_member (opt_member (opt_member data "output") "data") "code" in
        let status :=
          if is_str code "SUCCESS" then "✅ Marked Present"
          else if is_str code "ATTENDANCE_NOT_VALID" then "❌ Invalid QR"
          else "⚠️ " +:+ to_display (js_or code (VStr "Error")) in
        let result := {| rname := VStr (name user); status := status; code := code |} in
        {| t_start := [request];
           t_finish := [SetResultAt index result];
           t_outcome := Fulfilled result |}
    | NetworkError =>
        let result := {| rname := VStr (name user);
                         status := "❌ Network error";
                         code := VStr "TIMEOUT" |} in
        {| t_start := [request];
           t_finish := [SetResultAt index result];
           t_outcome := Fulfilled result |}
    end.

(** [users.map((user, index) => queue.add(async () => ...))] *)
Fixpoint add_tasks (env : Env) (attendanceId : string) (userCookies : list jsval)
    (index : nat) (users : list User) (w : World) : list nat * World :=
  match users with
  | [] => ([], w)
  | user :: rest =>
      let '(p, w1) :=
        add (attendanceTask user index attendanceId userCookies (replies env index)) w in
      let '(ps, w2) := add_tasks env attendanceId userCookies (S index) rest w1 in
      (p :: ps, w2)
  end.

(** [results.forEach((result, index) => ...)] pushing onto
    [processedResults]; [inr] when [users[index].name] throws. *)
Fixpoint collect (users : list User) (index : nat) (settled : list (Settled Result))
    (processedResults : list Result) : list Result + list Result :=
  match settled with
  | [] => inl processedResults
  | Fulfilled value :: rest =>
      collect users (S index) rest (processedResults ++ [value])
  | Rejected _ :: rest =>
      match users !! index with
      | Some user =>
          collect users (S index) rest
            (processedResults ++ [{| rname := VStr (name user);
                                     status := "❌ Processing failed";
                                     code := VStr "ERROR" |}])
      | None => inr processedResults
      end
  end.

Definition pending_result (user : User) : Result :=
  {| rname := VStr (name user); status := "⏳ Queued..."; code := VStr "PENDING" |}.

Definition count_success (rs : list Result) : nat :=
  length (filter (fun r => is_str (code r) "SUCCESS" = true) rs).

(** Method 2: client-side queue processing (lines 137-261). *)
Definition processQueueAttendance (env : Env) (users : list User)
    (attendanceId : string) (userCookies : list jsval) (w : World)
    : option (Report * World) :=
  let w := emit [SetIsProcessing true;
                 SetProgress (VNum 0) (VNum (Z.of_nat (length users)));
                 SetResults (map pending_result users)] w in
  let w := clear w in
  let w := setProgressCallback progress_callback w in
  let w := emit [ConsoleLog ("🔄 Starting queue-based attendance processing for "
                             +:+ pretty (Z.of_nat (length users)) +:+ " users")] w in
  let '(tasks, w) := add_tasks env attendanceId userCookies 0 users w in
  match await_allSettled (fuel env) (sched env) 0 tasks w with
  | None => None
  | Some (settled, w) =>
      match collect users 0 settled [] with
      | inl processedResults =>
          let successful := count_success processedResults in
          let w := emit [ConsoleLog ("✅ Queue processing completed: "
                                     +:+ pretty (Z.of_nat successful) +:+ "/"
                                     +:+ pretty (Z.of_nat (length processedResults))
                                     +:+ " successful");
                         SetIsProcessing false] w in
          Some ({| success := true;
                   total := VNum (Z.of_nat (length processedResults));
                   successful := VNum (Z.of_nat successful);
                   failed := VNum (Z.of_nat (length processedResults) - Z.of_nat successful);
                   error := VUndefined;
                   results := processedResults |}, w)
      | inr processedResults =>
          let w := emit [ConsoleError "❌ Queue processing error:";
                         SetIsProcessing false] w in
          Some ({| success := false;
                   total := VUndefined;
                   successful := VUndefined;
                   failed := VUndefined;
                   error := VStr "Cannot read properties of undefined (reading 'name')";
                   results := processedResults |}, w)
      end
  end.


(** One element of [data.results.map(result => ...)]; [None] when reading
    [result.name] throws. *)
Definition format_result (result : jsval) : option Result :=
  match member result "name", member result "status", member result "error" with
  | Some nm, Some st, Some er =>
      Some {| rname := nm;
              status := if is_str st "success" then "✅ Marked Present"
                        else "❌ " +:+ to_display (js_or er (VStr "Failed"));
              code := VStr (if is_str st "success" then "SUCCESS" else "ERROR") |}
  | _, _, _ => None
  end.

(** The [try] block of the batch path after the request was sent: [None]
    when it throws ([fetch] rejects, [!response.ok], [response.json()]
    rejects, [data.results] is not an array, an element is [null]). *)
Definition batch_try (reply : BatchOutcome) : option (Report * list Effect) :=
  match reply with
  | BatchNetworkError => None
  | BatchResponse false _ _ => None
  | BatchResponse true _ None => None
  | BatchResponse true _ (Some data) =>
      match member data "results" with
      | Some (VArr rs) =>
          match mapM format_result rs with
          | Some formattedResults =>
              let total := opt_member data "total" in
              let successful := opt_member data "successful" in
              Some ({| success := true;
                       total := total;
                       successful := successful;
                       failed := opt_member data "failed";
                       error := VUndefined;
                       results := formattedResults |},
                    [SetResults formattedResults;
                     SetProgress total total;
                     ConsoleLog ("✅ Batch processing completed: "
                                 +:+ to_display successful +:+ "/"
                                 +:+ to_display total +:+ " successful")])
          | None => None
          end
      | _ => None
      end
  end.

Definition fallback_message : string := "🔄 Falling back to queue-based processing...".

(** Method 1: server-side batch processing (lines 72-134). *)
Definition processBatchAttendance (env : Env) (users : list User)
    (attendanceId : string) (userCookies : list jsval) (w : World)
    : option (Report * World) :=
  let w := emit [SetIsProcessing true;
                 SetProgress (VNum 0) (VNum (Z.of_nat (length users)));
                 SetResults []] w in
  let usersWithCookies :=
    imap (fun index user =>
            VObj [("name", VStr (name user));
                  ("stuId", VStr (stuId user));
                  ("cookie", default VUndefined (userCookies !! index))]) users in
  let w := emit [ConsoleLog ("🚀 Starting batch attendance processing for "
                             +:+ pretty (Z.of_nat (length users)) +:+ " users");
                 Fetch "/api/mark-attendance-batch" None
                       (VObj [("attendanceId", VStr attendanceId);
                              ("users", VArr usersWithCookies)])] w in
  match batch_try (batch_reply env) with
  | Some (report, fx) =>
      Some (report, emit (fx ++ [SetIsProcessing false]) w)
  | None =>
      let w := emit [ConsoleError "❌ Batch processing error:";
                     ConsoleLog fallback_message] w in
      match processQueueAttendance env users attendanceId userCookies w with
      | Some (report, w) => Some (report, emit [SetIsProcessing false] w)
      | None => None
      end
  end.

(** The main function (lines 264-281); [processingMethod] is the hook's
    state, ['batch'] unless the caller changed it.  The promise of the async
    function fulfils with a report or with [undefined] ([None]). *)
Definition processAttendance (processingMethod : string) (env : Env)
    (users : list User) (attendanceId : string)
    (userCookies : option (list jsval)) (w : World)
    : option (Settled (option Report) * World) :=
  if Nat.eqb (length users) 0 then
    Some (Fulfilled None,
          emit [Alert "No users loaded yet. Please add users first."] w)
  else
    match userCookies with
    | None =>
        Some (Fulfilled None,
              emit [Alert "Cookies not loaded yet. Please wait a moment and try again."] w)
    | Some cookies =>
        if negb (Nat.eqb (length cookies) (length users)) then
          Some (Fulfilled None,
                emit [Alert "Cookies not loaded yet. Please wait a moment and try again."] w)
        else
          match
            (if String.eqb processingMethod "batch" && (5 <=? length users)%nat
             then processBatchAttendance env users attendanceId cookies w
             else processQueueAttendance env users attendanceId cookies w)
          with
          | Some (report, w) => Some (Fulfilled (Some report), w)
          | None => None
          end
    end.

(** ** Server side: markSingleAttendance (TECHNICAL_REPORT.md, lines 134-145) *)

(** [api.post] returns the response or throws. *)
Inductive ApiReply :=
| ApiThrows (error : string)
| ApiData (data : jsval).

Inductive RetryEffect :=
| Post (attempt : nat)
| Sleep (ms : Z).

(** The loop [for (attempt = ...; attempt <= retries; attempt++)], with
    [left = retries - attempt + 1] iterations to go. *)
Fixpoint retry_loop (api_post : nat -> ApiReply) (retries attempt left : nat)
    : list RetryEffect * Settled jsval :=
  match left with
  | O => ([], Fulfilled VUndefined)
  | S left' =>
      match api_post attempt with
      | ApiData data => ([Post attempt], Fulfilled data)
      | ApiThrows error =>
          if Nat.eqb attempt retries then ([Post attempt], Rejected error)
          else
            let '(fx, r) := retry_loop api_post retries (S attempt) left' in
            (Post attempt :: Sleep (1000 * 2 ^ (Z.of_nat attempt - 1)) :: fx, r)
      end
  end.

Definition markSingleAttendance (api_post : nat -> ApiReply) (retries : nat)
    : list RetryEffect * Settled jsval :=
  retry_loop api_post retries 1 retries.

Definition waited (fx : list RetryEffect) : Z :=
  foldr (fun e acc => match e with Sleep ms => ms + acc | Post _ => acc end) 0 fx.

Definition calls (fx : list RetryEffect) : nat :=
  foldr (fun e acc => match e with Post _ => S acc | Sleep _ => acc end) O fx.

(** * Vocabulary of the properties *)

(** The counter never passes the ceiling, whatever happens. *)
Definition capped (w : World) : Prop := running (this w) ≤ concurrency (this w).

(** While [clear()] leaves started tasks alone, the counter is the number
    of started tasks. *)
Definition counted (w : World) : Prop :=
  running (this w) = Z.of_nat (length (in_flight w)).

(** While tasks wait in the queue, started tasks and pending timers
    together fill the ceiling: some resumption will admit the next one. *)
Definition live (w : World) : Prop :=
  queue (this w) ≠ [] →
  concurrency (this w) ≤ running (this w) + Z.of_nat (timers w).

(** The entries whose promise is still to settle: queued or started. *)
Definition waiting (w : World) : list Entry := queue (this w) ++ in_flight w.

(** The entries [es] handed to [add()] so far are each either waiting with
    a pending promise, or settled the way their task ended. *)
Record booked (es : list Entry) (w : World) : Prop := {
  bk_nodup : NoDup (promise <$> waiting w);
  bk_pending : ∀ e, e ∈ waiting w → e ∈ es ∧ promises w !! promise e = Some None;
  bk_settled : ∀ e, e ∈ es →
    e ∈ waiting w ∨ promises w !! promise e = Some (Some (t_outcome (task e)))
}.

(** What remains to be done: two resumptions at most per waiting entry,
    one per pending timer. *)
Definition backlog (w : World) : nat := (2 * length (waiting w) + timers w)%nat.

(** The progress updates of a log, in order: [(completed, total)]. *)
Definition snapshots (fx : list Effect) : list (jsval * jsval) :=
  omap (λ e, match e with SetProgress c t => Some (c, t) | _ => None end) fx.

(** A task that leaves the progress state alone and never rejects. *)
Definition plain (tk : Task) : Prop :=
  snapshots (t_start tk) = [] ∧ snapshots (t_finish tk) = [] ∧
  ∃ r, t_outcome tk = Fulfilled r.

(** Where an effect of the run comes from: the progress callback, or one
    of the tasks. *)
Definition sourced (es : list Entry) (fx : Effect) : Prop :=
  (∃ c t, fx = SetProgress c t) ∨
  ∃ e, e ∈ es ∧ (fx ∈ t_start (task e) ∨ fx ∈ t_finish (task e)).

(** A snapshot as the queue reports it to [progress_callback]. *)
Definition reported (n : nat) (s : jsval * jsval) : Prop :=
  s.1 = VNum 1 ∧ ∃ z, s.2 = VNum z ∧ 1 ≤ z ≤ Z.of_nat n.

(** The log of a run since [base], and the queue fields it depends on:
    the effects come from the tasks and the callback, and there is one
    reported snapshot per entry that is no longer waiting. *)
Record logged (base : list Effect) (es : list Entry) (w : World) : Prop := {
  lg_results : AttendanceQueue.results (this w) = [];
  lg_callback : onProgress (this w) = Some progress_callback;
  lg_counted : counted w;
  lg_plain : ∀ e, e ∈ es → plain (task e);
  lg_known : ∀ e, e ∈ waiting w → e ∈ es;
  lg_log : ∃ delta,
    log w = base ++ delta ∧
    Forall (sourced es) delta ∧
    (length (snapshots delta) + length (waiting w) = length es)%nat ∧
    Forall (reported (length es)) (snapshots delta)
}.

(** The task [processQueueAttendance] builds for the user at [index]. *)
Definition user_task (env : Env) (attendanceId : string) (userCookies : list jsval)
    (index : nat) (user : User) : Task :=
  attendanceTask user index attendanceId userCookies (replies env index).

(** What [results.forEach] pushes for a settled promise. *)
Definition settled_result (user : User) (o : Settled Result) : Result :=
  match o with
  | Fulfilled value => value
  | Rejected _ => {| rname := VStr (name user);
                     status := "❌ Processing failed";
                     code := VStr "ERROR" |}
  end.

Definition user_result (env : Env) (attendanceId : string) (userCookies : list jsval)
    (index : nat) (user : User) : Result :=
  settled_result user (t_outcome (user_task env attendanceId userCookies index user)).

(** Everything a run of the queue path keeps true between resumptions. *)
Record run_inv (base : list Effect) (es : list Entry) (w : World) : Prop := {
  rv_booked : booked es w;
  rv_live : live w;
  rv_logged : logged base es w
}.

(** The report of the queue path, in closed form. *)
Definition queue_report (env : Env) (attendanceId : string) (userCookies : list jsval)
    (users : list User) : Report :=
  let processedResults := imap (user_result env attendanceId userCookies) users in
  {| success := true;
     total := VNum (Z.of_nat (length processedResults));
     successful := VNum (Z.of_nat (count_success processedResults));
     failed := VNum (Z.of_nat (length processedResults)
                     - Z.of_nat (count_success processedResults));
     error := VUndefined;
     results := processedResults |}.

(** What the queue path logs before its first [add] and after its
    [forEach]. *)
Definition queue_prelude (users : list User) : list Effect :=
  [SetIsProcessing true;
   SetProgress (VNum 0) (VNum (Z.of_nat (length users)));
   SetResults (map pending_result users);
   ConsoleLog ("🔄 Starting queue-based attendance processing for "
               +:+ pretty (Z.of_nat (length users)) +:+ " users")].

Definition queue_epilogue (report : Report) : list Effect :=
  [ConsoleLog ("✅ Queue processing completed: "
               +:+ to_display (successful report) +:+ "/"
               +:+ to_display (total report) +:+ " successful");
   SetIsProcessing false].

(** [!userCookie] for the user at [index]. *)
Definition cookie_absent (userCookies : list jsval) (index : nat) : bool :=
  negb (truthy (default VUndefined (userCookies !! index))).


(** The effects a queue run interleaves between its prelude and its
    epilogue. *)
Definition queue_effect (fx : Effect) : bool :=
  match fx with
  | SetProgress _ _ | SetResultAt _ _ => true
  | Fetch url (Some _) _ => String.eqb url "/api/mark-attendance"
  | _ => false
  end.

(** Sample inputs. *)
Definition sample_users : list User :=
  [{| name := "Asha"; stuId := "S1" |}; {| name := "Ben"; stuId := "S2" |}].

Definition sample_cookies : list jsval := [VStr "sid=1"; VNull].

Definition success_body : jsval :=
  VObj [("output", VObj [("data", VObj [("code", VStr "SUCCESS")])])].

Definition sample_env : Env :=
  {| replies := λ _, Response (Some success_body);
     batch_reply := BatchNetworkError;
     sched := λ tick, tick;
     fuel := 4 |}.

(** The results whose code is not ['SUCCESS']. *)
Definition failure_count (rs : list Result) : nat :=
  length (filter (λ r, is_str (code r) "SUCCESS" = false) rs).

(** The same environment under another order of resumptions. *)
Definition reschedule (env : Env) (sched' : nat → nat) (fuel' : nat) : Env :=
  {| replies := replies env; batch_reply := batch_reply env;
     sched := sched'; fuel := fuel' |}.

(** How often an effect of some kind occurs in a log. *)
Definition occurrences (p : Effect → bool) (fx : list Effect) : nat :=
  length (filter (λ e, p e = true) fx).

Definition is_log (msg : string) (e : Effect) : bool :=
  match e with
  | ConsoleLog m => String.eqb m msg
  | _ => false
  end.

Definition is_batch_fetch (e : Effect) : bool :=
  match e with
  | Fetch url _ _ => String.eqb url "/api/mark-attendance-batch"
  | _ => false
  end.


(** The two alerts of [processAttendance]. *)
Definition no_users_alert : string := "No users loaded yet. Please add users first.".
Definition no_cookies_alert : string :=
  "Cookies not loaded yet. Please wait a moment and try again.".

(** The caller's input fails the two guards of [processAttendance]. *)
Definition rejected_input (users : list User) (userCookies : option (list jsval)) : bool :=
  Nat.eqb (length users) 0 ||
  match userCookies with
  | None => true
  | Some cookies => negb (Nat.eqb (length cookies) (length users))
  end.

Definition three_users : list User :=
  [{| name := "Asha"; stuId := "S1" |}; {| name := "Ben"; stuId := "S2" |};
   {| name := "Chen"; stuId := "S3" |}].

(** The decision of [processAttendance]: the batch method is on (the
    hook's [processingMethod] is ['batch'], its initial value) and there are
    at least five users. *)
Definition batch_chosen (processingMethod : string) (users : list User) : bool :=
  String.eqb processingMethod "batch" && (5 <=? length users)%nat.

Definition six_users : list User :=
  [{| name := "Asha"; stuId := "S1" |}; {| name := "Ben"; stuId := "S2" |};
   {| name := "Chen"; stuId := "S3" |}; {| name := "Dara"; stuId := "S4" |};
   {| name := "Eli"; stuId := "S5" |}; {| name := "Fay"; stuId := "S6" |}].

Definition six_cookies : list jsval :=
  [VStr "sid=1"; VStr "sid=2"; VStr "sid=3"; VStr "sid=4"; VStr "sid=5"; VStr "sid=6"].

Definition roomy_env : Env :=
  {| replies := λ _, Response (Some success_body);
     batch_reply := BatchNetworkError;
     sched := λ tick, (5 * tick + 2)%nat;
     fuel := 12 |}.

(** What one invocation of the queue path does to the queue before it
    awaits: [clear()], [setProgressCallback], one [add] per user. *)
Definition invocation (env : Env) (attendanceId : string) (userCookies : list jsval)
    (users : list User) : list Event :=
  [EvClear; EvSetProgressCallback progress_callback]
  ++ imap (λ index user, EvAdd (user_task env attendanceId userCookies index user)) users.

Definition four_users : list User := take 4 six_users.

Definition is_fetch (e : Effect) : bool :=
  match e with
  | Fetch _ _ _ => true
  | _ => false
  end.

Definition failing_env : Env :=
  {| replies := λ _, NetworkError;
     batch_reply := BatchNetworkError;
     sched := λ tick, tick;
     fuel := 2 |}.

Definition flaky_post (attempt : nat) : ApiReply :=
  match attempt with
  | 1%nat | 2%nat => ApiThrows "ECONNRESET"
  | _ => ApiData success_body
  end.

(** ** Further vocabulary: requests and rows *)

(** The world in which the queue path starts adding its tasks: after the
    three state setters, [clear()], [setProgressCallback] and the first
    [console.log]. *)
Definition queue_start (users : list User) (w : World) : World :=
  emit [ConsoleLog ("🔄 Starting queue-based attendance processing for "
                    +:+ pretty (Z.of_nat (length users)) +:+ " users")]
    (setProgressCallback progress_callback
       (clear
          (emit [SetIsProcessing true;
                 SetProgress (VNum 0) (VNum (Z.of_nat (length users)));
                 SetResults (map pending_result users)] w))).





(** Every waiting entry holds a promise of the promise table. *)
Definition addressed (w : World) : Prop :=
  ∀ e, e ∈ waiting w → (promise e < length (promises w))%nat.

(** The calls and waits of a retry loop that makes [n] calls, the first
    one numbered [attempt]: a wait after every call but the last. *)
Definition retry_shape (attempt n : nat) : list RetryEffect :=
  flat_map (λ k, [Post k; Sleep (1000 * 2 ^ (Z.of_nat k - 1))]) (seq attempt (n - 1))
  ++ [Post (attempt + n - 1)].

Definition always_throws (attempt : nat) : ApiReply := ApiThrows "ETIMEDOUT".


(** How the batch path formats one entry of the server's list. *)
Definition formatted_as (r : jsval) (f : Result) : Prop :=
  rname f = opt_member r "name" ∧
  code f = VStr (if is_str (opt_member r "status") "success" then "SUCCESS" else "ERROR") ∧
  status f = (if is_str (opt_member r "status") "success" then "✅ Marked Present"
              else "❌ " +:+ to_display (js_or (opt_member r "error") (VStr "Failed"))).

Definition batch_body : jsval :=
  VObj [("total", VNum 2); ("successful", VNum 1); ("failed", VNum 1);
        ("results",
         VArr [VObj [("name", VStr "Asha"); ("status", VStr "success")];
               VObj [("name", VStr "Ben"); ("status", VStr "error");
                     ("error", VStr "EVENT_EXPIRED")]])].

Definition batch_env : Env :=
  {| replies := λ _, NetworkError;
     batch_reply := BatchResponse true "OK" (Some batch_body);
     sched := λ tick, tick;
     fuel := 20 |}.

(** The first [m] snapshots the queue reports in a run of [n] tasks:
    [completed] is 1 and [total] counts down from [n]. *)
Definition countdown (n m : nat) : list (jsval * jsval) :=
  (λ j, (VNum 1, VNum (Z.of_nat (n - j)))) <$> seq 0 m.

(** While the tasks are being added no snapshot was reported; once the [n]
    tasks are in, the snapshots reported since [base] are the countdown, one
    per entry that is no longer waiting. *)
Definition counting_down (base : list Effect) (n : nat) (es : list Entry) (w : World) : Prop :=
  ∃ delta,
    log w = base ++ delta ∧
    ((length es < n)%nat → snapshots delta = []) ∧
    (length es = n → snapshots delta = countdown n (n - length (waiting w))).

(** ** The hook's [results] state *)

(** An element of the [results] array: a row, the value [undefined], or a
    hole of a sparse array. *)
Inductive Slot :=
| Row (r : Result)
| Blank
| Hole.

(** [prev => { const updated = [...prev]; updated[index] = result; return
    updated; }]: the spread turns holes into [undefined]; assigning past the
    end extends the array and leaves holes. *)
Definition set_row (index : nat) (r : Result) (prev : list Slot) : list Slot :=
  let updated := (λ s, match s with Hole => Blank | _ => s end) <$> prev in
  if (index <? length updated)%nat then <[index := Row r]> updated
  else updated ++ replicate (index - length updated) Hole ++ [Row r].

Definition apply_update (st : list Slot) (e : Effect) : list Slot :=
  match e with
  | SetResults rs => Row <$> rs
  | SetResultAt index r => set_row index r st
  | _ => st
  end.

(** The [results] state ([useState([])]) once React has applied the
    updates of a log in order. *)
Definition results_state (fx : list Effect) : list Slot := foldl apply_update [] fx.

(** [results.filter(r => p(r)).length]: [filter] skips holes; reading
    [r.code] of [undefined] throws ([None]). *)
Fixpoint count_matching (p : Result → bool) (st : list Slot) : option nat :=
  match st with
  | [] => Some O
  | Row r :: rest => (λ n, if p r then S n else n) <$> count_matching p rest
  | Blank :: _ => None
  | Hole :: rest => count_matching p rest
  end.

Definition getSuccessCount (results : list Slot) : option nat :=
  count_matching (λ r, is_str (code r) "SUCCESS") results.

Definition getFailureCount (results : list Slot) : option nat :=
  count_matching (λ r, negb (is_str (code r) "SUCCESS") && negb (is_str (code r) "PENDING"))
                 results.

(** The number of rows a predicate holds of. *)
Definition rows_where (p : Result → bool) (rs : list Result) : nat :=
  length (filter (λ r, p r = true) rs).

(** The rows shown for the users of a run: every row is the queued
    placeholder or the user's result, and it is the result once the user's
    task has settled, or has started and has nothing left to do. *)
Definition shown (env : Env) (attendanceId : string) (userCookies : list jsval)
    (users : list User) (es : list Entry) (w : World) : Prop :=
  ∃ rs,
    results_state (log w) = Row <$> rs ∧
    length rs = length users ∧
    (∀ i e, es !! i = Some e →
       ∃ u, users !! i = Some u ∧ task e = user_task env attendanceId userCookies i u) ∧
    (∀ i u, users !! i = Some u →
       rs !! i = Some (pending_result u) ∨
       rs !! i = Some (user_result env attendanceId userCookies i u)) ∧
    (∀ i e u, es !! i = Some e → users !! i = Some u →
       e ∉ waiting w ∨ (e ∈ in_flight w ∧ t_finish (task e) = []) →
       rs !! i = Some (user_result env attendanceId userCookies i u)).

(** How many of [n] tasks a queue with ceiling [C] and [r] running tasks
    starts at once. *)
Definition burst (C r : Z) (n : nat) : nat := Z.to_nat (Z.min (C - r) (Z.of_nat n)).

(** ** Server side: the loop of the batch endpoint (TECHNICAL_REPORT.md, lines 99-117) *)

(** What the loop does, in order: a wave of concurrent
    [markSingleAttendance] calls awaited together, or a pause. *)
Inductive ServerStep (A : Type) :=
| Wave (batch : list A)
| Pause (ms : Z).
Arguments Wave {A} batch.
Arguments Pause {A} ms.

Definition batchSize : nat := 3.
Definition delayBetweenBatches : Z := 500.

(** [for (let i = 0; i < users.length; i += batchSize)], started at [i];
    [None] when the fuel runs out. *)
Fixpoint batch_loop {A} (fuel : nat) (users : list A) (i : nat)
    : option (list (ServerStep A)) :=
  if (i <? length users)%nat then
    match fuel with
    | O => None
    | S fuel' =>
        let batch := take batchSize (drop i users) in
        let pause := if (i + batchSize <? length users)%nat
                     then [Pause delayBetweenBatches] else [] in
        (λ rest, Wave batch :: pause ++ rest) <$> batch_loop fuel' users (i + batchSize)
    end
  else Some [].

Definition waves {A} (steps : list (ServerStep A)) : list (list A) :=
  omap (λ s, match s with Wave batch => Some batch | Pause _ => None end) steps.

Definition pauses {A} (steps : list (ServerStep A)) : list Z :=
  omap (λ s, match s with Wave _ => None | Pause ms => Some ms end) steps.

(** ** Two invocations at once *)

(** Tasks settle in the order in which they were started. *)
Definition steady_env : Env :=
  {| replies := λ _, Response (Some success_body);
     batch_reply := BatchNetworkError;
     sched := λ _, 0%nat;
     fuel := 12 |}.

(** A first invocation of the queue path for four users, suspended at its
    [await Promise.allSettled(tasks)]: its promises and the world it left. *)
Definition suspended_call : list nat * World :=
  add_tasks steady_env "QR-1" six_cookies 0 four_users
            (queue_start four_users (boot hook_queue)).

(** A second invocation, made while the first is suspended. *)
Definition overlapping_call : option (Report * World) :=
  processQueueAttendance steady_env four_users "QR-2" six_cookies suspended_call.2.

(** The per-user requests of a log, in order: the input index and the
    attendance id of each. *)
Definition sent (fx : list Effect) : list (nat * jsval) :=
  omap (λ e, match e with
             | Fetch _ (Some index) body => Some (index, opt_member body "attendanceId")
             | _ => None
             end) fx.

(** The batch endpoint answers the request of this invocation with an ok
    response. *)
Definition endpoint_available (env : Env) : bool :=
  match batch_reply env with
  | BatchResponse true _ _ => true
  | _ => false
  end.

(** The log an invocation leaves when it returns. *)
Definition log_of {A} (run : option (A * World)) : list Effect :=
  match run with
  | Some (_, w) => log w
  | None => []
  end.

(** What [processAttendance] makes of the run of the method it chose:
    [return await ...]. *)
Definition returned (run : option (Report * World))
    : option (Settled (option Report) * World) :=
  match run with
  | Some (report, w) => Some (Fulfilled (Some report), w)
  | None => None
  end.

(** An environment whose batch endpoint answers. *)
Definition served_env : Env :=
  {| replies := λ _, Response (Some success_body);
     batch_reply := BatchResponse true "OK" (Some batch_body);
     sched := λ tick, tick;
     fuel := 12 |}.

(** * Properties *)

(** ** The queue's counters *)

Section QueueCounters.

(** [process()] either returns at its guard or admits the head of the queue. *)
Lemma process_cases (w : World) :
  (process w = w ∧
   (concurrency (this w) ≤ running (this w) ∨ queue (this w) = [])) ∨
  ∃ e rest,
    queue (this w) = e :: rest ∧
    running (this w) < concurrency (this w) ∧
    process w =
      {| this := {| concurrency := concurrency (this w); delay := delay (this w);
                    queue := rest; running := running (this w) + 1;
                    AttendanceQueue.results := AttendanceQueue.results (this w);
                    onProgress := onProgress (this w) |};
         in_flight := in_flight w ++ [e];
         timers := timers w;
         promises := promises w;
         log := log w ++ t_start (task e) |}.
Proof.
  unfold process.
  destruct (concurrency (this w) <=? running (this w)) eqn:Hguard; simpl.
  { left. split; [done|]. left. lia. }
  destruct (queue (this w)) as [|e rest] eqn:Hq; simpl.
  { left. split; [done|]. by right. }
  right. exists e, rest. repeat split. lia.
Qed.

Lemma process_concurrency w : concurrency (this (process w)) = concurrency (this w).
Proof. destruct (process_cases w) as [[-> _]|(e & rest & _ & _ & ->)]; done. Qed.

Lemma resume_concurrency e w : concurrency (this (resume e w)) = concurrency (this w).
Proof.
  unfold resume. case_match; [done|]. by rewrite process_concurrency.
Qed.

Lemma step_concurrency ev w : concurrency (this (step ev w)) = concurrency (this w).
Proof.
  destruct ev; simpl; try done.
  - by rewrite process_concurrency.
  - unfold settle. case_match; [|done]. by rewrite resume_concurrency.
  - unfold fire. case_match; [done|]. by rewrite process_concurrency.
Qed.

Lemma exec_concurrency tr w : concurrency (this (exec tr w)) = concurrency (this w).
Proof.
  revert w. induction tr as [|ev tr IH]; intros w; simpl; [done|].
  by rewrite IH, step_concurrency.
Qed.

Lemma process_capped w : capped w → capped (process w).
Proof.
  unfold capped.
  destruct (process_cases w) as [[-> _]|(e & rest & _ & Hlt & ->)]; simpl; lia.
Qed.

Lemma resume_capped e w : capped w → capped (resume e w).
Proof.
  unfold capped, resume. intros H. case_match.
  - simpl. lia.
  - apply process_capped. unfold capped. simpl. lia.
Qed.

Lemma step_capped ev w : 0 ≤ concurrency (this w) → capped w → capped (step ev w).
Proof.
  intros Hc H. destruct ev; simpl.
  - apply process_capped. exact H.
  - exact H.
  - unfold capped. simpl. exact Hc.
  - unfold settle. case_match; [|done]. by apply resume_capped.
  - unfold fire. case_match; [done|]. by apply process_capped.
Qed.

Lemma process_counted w : counted w → counted (process w).
Proof.
  unfold counted.
  destruct (process_cases w) as [[-> _]|(e & rest & _ & _ & ->)]; simpl; [done|].
  rewrite length_app. simpl. lia.
Qed.

Lemma settle_counted k w : counted w → counted (settle k w).
Proof.
  unfold counted, settle. intros H.
  destruct (in_flight w !! k) as [e|] eqn:Hk; [|done].
  assert (Hlen : length (delete k (in_flight w)) = pred (length (in_flight w))).
  { rewrite length_delete by eauto. lia. }
  apply lookup_lt_Some in Hk.
  unfold resume. case_match.
  - simpl. lia.
  - apply process_counted. unfold counted. simpl. lia.
Qed.

Lemma step_counted ev w :
  match ev with EvClear => in_flight w = [] | _ => True end →
  counted w → counted (step ev w).
Proof.
  intros Hrest H. destruct ev; simpl.
  - by apply process_counted.
  - exact H.
  - unfold counted. simpl. by rewrite Hrest.
  - by apply settle_counted.
  - unfold fire. case_match; [done|]. by apply process_counted.
Qed.

Lemma process_live w : live w → live (process w).
Proof.
  unfold live.
  destruct (process_cases w) as [[-> _]|(e & rest & Hq & _ & ->)]; simpl; [done|].
  intros H _. rewrite Hq in H. specialize (H ltac:(done)). lia.
Qed.

Lemma add_live tk w : live w → live (snd (add tk w)).
Proof.
  unfold live, add. simpl. intros H.
  match goal with |- context [process ?x] => set (w1 := x) end.
  destruct (process_cases w1) as [[-> [Hr|Hq]]|(e & rest & Hq & _ & ->)]; simpl.
  - simpl in Hr. lia.
  - simpl in Hq. by destruct (queue (this w)).
  - simpl in Hq. intros Hrest.
    destruct (queue (this w)) as [|e0 q0] eqn:Hq0; simpl in Hq.
    + inversion Hq; subst. done.
    + specialize (H ltac:(done)). lia.
Qed.

Lemma settle_live k w : live w → live (settle k w).
Proof.
  unfold settle. intros H.
  destruct (in_flight w !! k) as [e|]; [|done].
  unfold resume. simpl. case_match eqn:Hlen.
  - unfold live in *. simpl. intros Hq. specialize (H Hq).
    rewrite Nat2Z.inj_succ. lia.
  - apply process_live. unfold live. simpl. intros Hq.
    apply Z.ltb_ge in Hlen.
    destruct (queue (this w)); [done|]. simpl length in Hlen. lia.
Qed.

Lemma fire_live w : live w → live (fire w).
Proof.
  unfold fire. intros H. destruct (timers w) as [|n] eqn:Ht; [done|].
  match goal with |- context [process ?x] => set (w1 := x) end.
  unfold live in *. rewrite Ht in H.
  destruct (process_cases w1) as [[-> [Hr|Hq]]|(e & rest & Hq & _ & ->)]; simpl in *.
  - lia.
  - done.
  - intros _. rewrite Hq in H. specialize (H ltac:(done)). lia.
Qed.

End QueueCounters.

(** ** Entries and their promises *)

Section Bookkeeping.

Lemma booked_perm es w w' :
  waiting w' ≡ₚ waiting w → promises w' = promises w → booked es w → booked es w'.
Proof.
  intros Hp Hs [H1 H2 H3]. split.
  - by rewrite Hp.
  - intros e He. rewrite Hs. apply H2. by rewrite <- Hp.
  - intros e He. rewrite Hs, Hp. by apply H3.
Qed.

Lemma process_waiting w : waiting (process w) ≡ₚ waiting w.
Proof.
  unfold waiting.
  destruct (process_cases w) as [[-> _]|(e & rest & Hq & _ & ->)]; simpl; [done|].
  rewrite Hq. simpl. rewrite (Permutation_app_comm (in_flight w) [e]). simpl.
  by rewrite Permutation_middle.
Qed.

Lemma process_promises w : promises (process w) = promises w.
Proof. destruct (process_cases w) as [[-> _]|(e & rest & _ & _ & ->)]; done. Qed.

Lemma process_booked es w : booked es w → booked es (process w).
Proof. apply booked_perm; [apply process_waiting | apply process_promises]. Qed.

Lemma fire_booked es w : booked es w → booked es (fire w).
Proof.
  unfold fire. destruct (timers w); [done|]. intros H.
  apply process_booked. revert H. by apply booked_perm.
Qed.

Lemma resume_waiting e w : waiting (resume e w) ≡ₚ waiting w.
Proof.
  unfold resume. case_match; [done|]. by rewrite process_waiting.
Qed.

Lemma resume_promises e w :
  promises (resume e w) =
  settle_promise (promise e) (t_outcome (task e)) (promises w).
Proof.
  unfold resume. case_match; [done|]. by rewrite process_promises.
Qed.

Lemma settle_waiting k e w :
  in_flight w !! k = Some e → waiting w ≡ₚ e :: waiting (settle k w).
Proof.
  intros Hk. unfold settle. rewrite Hk, resume_waiting. unfold waiting. simpl.
  rewrite (delete_Permutation _ _ _ Hk) at 1. by rewrite Permutation_middle.
Qed.

Lemma settle_booked es k w : booked es w → booked es (settle k w).
Proof.
  intros [H1 H2 H3].
  destruct (in_flight w !! k) as [e|] eqn:Hk;
    [|unfold settle; rewrite Hk; by split].
  pose proof (settle_waiting _ _ _ Hk) as Hp.
  assert (Hs : promises (settle k w) =
               <[promise e := Some (t_outcome (task e))]> (promises w)).
  { unfold settle. rewrite Hk, resume_promises. simpl. unfold settle_promise.
    destruct (H2 e) as [_ ->]; [|done]. rewrite Hp. left. }
  rewrite Hp in H1. simpl in H1. apply NoDup_cons in H1 as [Hfresh H1].
  assert (Hpe : promises w !! promise e = Some None).
  { apply H2. rewrite Hp. left. }
  split.
  - exact H1.
  - intros e' He'. destruct (H2 e') as [Hes Hpend]; [rewrite Hp; by right|].
    split; [done|]. rewrite Hs, list_lookup_insert_ne; [done|].
    intros Heq. apply Hfresh. rewrite Heq. apply list_elem_of_fmap. eauto.
  - intros e' He'. rewrite Hs.
    destruct (H3 e' He') as [Hw|Hd].
    + rewrite Hp in Hw. apply elem_of_cons in Hw as [->|Hw]; [|by left].
      right. apply list_lookup_insert_eq. by eapply lookup_lt_Some.
    + right. rewrite list_lookup_insert_ne; [done|]. congruence.
Qed.

Lemma add_booked es tk w :
  booked es w →
  booked (es ++ [{| task := tk; promise := length (promises w) |}]) (snd (add tk w)).
Proof.
  intros [H1 H2 H3]. unfold add. simpl.
  apply process_booked.
  set (e := {| task := tk; promise := length (promises w) |}).
  split; unfold waiting in *; simpl.
  - rewrite <- (assoc_L (++)), (Permutation_app_comm [e]), (assoc_L (++)).
    rewrite fmap_app. simpl. apply NoDup_app. split; [done|]. split.
    + intros p Hp Hin. apply list_elem_of_singleton in Hin. subst p.
      apply list_elem_of_fmap in Hp as (e' & Heq & He').
      destruct (H2 e' He') as [_ Hl]. apply lookup_lt_Some in Hl.
      rewrite <- Heq in Hl. simpl in Hl. lia.
    + apply NoDup_singleton.
  - intros e' He'.
    rewrite <- (assoc_L (++)), (Permutation_app_comm [e]), (assoc_L (++)) in He'.
    apply elem_of_app in He' as [He'|He'].
    + destruct (H2 e' He') as [Hes Hl]. split; [apply elem_of_app; by left|].
      by apply lookup_app_l_Some.
    + apply list_elem_of_singleton in He'. subst e'.
      split; [apply elem_of_app; right; by apply list_elem_of_singleton|].
      simpl. rewrite lookup_app_r by lia. by rewrite Nat.sub_diag.
  - intros e' He'. apply elem_of_app in He' as [He'|He'].
    + destruct (H3 e' He') as [Hw|Hd].
      * left. rewrite !elem_of_app in *. tauto.
      * right. by apply lookup_app_l_Some.
    + left. rewrite !elem_of_app. tauto.
Qed.

End Bookkeeping.

(** ** Awaiting the promises *)

Section Awaiting.

Lemma turn_cases c w :
  (in_flight w = [] ∧ timers w = O ∧ turn c w = w) ∨
  (∃ k, (k < length (in_flight w))%nat ∧ turn c w = settle k w) ∨
  (timers w ≠ O ∧ turn c w = fire w).
Proof.
  unfold turn.
  destruct (length (in_flight w) + match timers w with O => 0 | S _ => 1 end)%nat
    as [|n] eqn:Hn.
  - left. destruct (in_flight w); [|done]. by destruct (timers w).
  - right. destruct (_ <? _)%nat eqn:Hlt.
    + left. eexists. split; [|done]. by apply Nat.ltb_lt.
    + right. split; [|done]. apply Nat.ltb_ge in Hlt.
      pose proof (Nat.mod_upper_bound c (S n) ltac:(done)).
      destruct (timers w); [lia|done].
Qed.

(** A property kept by every resumption is kept by the whole wait. *)
Lemma await_invariant (P : World → Prop) fuel sched tick tasks w rs w' :
  (∀ k w, P w → P (settle k w)) →
  (∀ w, P w → P (fire w)) →
  P w →
  await_allSettled fuel sched tick tasks w = Some (rs, w') →
  P w'.
Proof.
  intros Hsettle Hfire. revert tick w.
  induction fuel as [|fuel IH]; intros tick w HP; simpl;
    destruct (allSettled tasks w); try congruence.
  intros Hrun. eapply IH; [|exact Hrun].
  destruct (turn_cases (sched tick) w) as [(_ & _ & ->)|[(k & _ & ->)|(_ & ->)]]; auto.
Qed.

Lemma process_timers w : timers (process w) = timers w.
Proof. destruct (process_cases w) as [[-> _]|(e & rest & _ & _ & ->)]; done. Qed.

Lemma settle_timers k w : (timers (settle k w) ≤ S (timers w))%nat.
Proof.
  unfold settle. destruct (in_flight w !! k); [|lia].
  unfold resume. case_match; simpl; [lia|]. rewrite process_timers. simpl. lia.
Qed.

Lemma settle_backlog k w :
  (k < length (in_flight w))%nat → (backlog (settle k w) < backlog w)%nat.
Proof.
  intros Hk. apply lookup_lt_is_Some in Hk as [e He].
  pose proof (settle_waiting _ _ _ He) as Hp. apply Permutation_length in Hp.
  pose proof (settle_timers k w). unfold backlog. simpl in Hp. lia.
Qed.

Lemma fire_backlog w : timers w ≠ O → (backlog (fire w) < backlog w)%nat.
Proof.
  intros Ht. unfold fire, backlog. destruct (timers w) as [|n]; [done|].
  rewrite process_timers, (Permutation_length (process_waiting _)).
  unfold waiting. simpl. lia.
Qed.

Lemma allSettled_outcomes es w rs :
  booked es w →
  allSettled (promise <$> es) w = Some rs →
  rs = (λ e, t_outcome (task e)) <$> es.
Proof.
  intros [_ H2 H3]. unfold allSettled.
  assert (Hes : ∀ e, e ∈ es →
            mjoin (promises w !! promise e) = None ∨
            mjoin (promises w !! promise e) = Some (t_outcome (task e))).
  { intros e He. destruct (H3 e He) as [Hw| ->]; [|by right].
    destruct (H2 e Hw) as [_ ->]. by left. }
  clear H2 H3. intros Hm. apply mapM_Some, Forall2_fmap_l in Hm.
  induction Hm as [|e r es rs Hr _ IH]; [done|].
  rewrite fmap_cons. f_equal.
  - destruct (Hes e ltac:(left)) as [Hn|Hs]; congruence.
  - apply IH. intros e' He'. apply Hes. by right.
Qed.

Lemma allSettled_pending es w :
  booked es w → allSettled (promise <$> es) w = None → waiting w ≠ [].
Proof.
  intros [_ _ H3] Hnone Hw. apply mapM_None_1 in Hnone.
  apply Exists_exists in Hnone as (p & Hp & Hnone).
  apply list_elem_of_fmap in Hp as (e & -> & He).
  destruct (H3 e He) as [Hin|Hd].
  - rewrite Hw in Hin. by apply elem_of_nil in Hin.
  - by rewrite Hd in Hnone.
Qed.

(** With a ceiling of at least one, the wait ends, whatever the order of
    resumptions, and yields each task's own outcome in the order of [es]. *)
Lemma await_returns es sched fuel : ∀ tick w,
  booked es w → counted w → live w → 1 ≤ concurrency (this w) →
  (backlog w ≤ fuel)%nat →
  ∃ w', await_allSettled fuel sched tick (promise <$> es) w
        = Some ((λ e, t_outcome (task e)) <$> es, w').
Proof.
  induction fuel as [|fuel IH]; intros tick w Hb Hc Hl Hcap Hfuel; simpl;
    destruct (allSettled (promise <$> es) w) as [rs|] eqn:Hall;
    try (rewrite (allSettled_outcomes _ _ _ Hb Hall); by eexists).
  - apply (allSettled_pending _ _ Hb) in Hall. unfold backlog in Hfuel.
    destruct (waiting w); [done|simpl in Hfuel; lia].
  - pose proof (allSettled_pending _ _ Hb Hall) as Hw.
    destruct (turn_cases (sched tick) w) as [(Hin & Ht & _)|[(k & Hk & ->)|(Ht & ->)]].
    + exfalso. unfold waiting in Hw. rewrite Hin, app_nil_r in Hw.
      specialize (Hl Hw). unfold counted in Hc. rewrite Hin in Hc.
      rewrite Ht in Hl. simpl in *. lia.
    + apply IH.
      * by apply settle_booked.
      * by apply settle_counted.
      * by apply settle_live.
      * by rewrite (step_concurrency (EvSettle k) w : concurrency (this (settle k w)) = _).
      * pose proof (settle_backlog k w Hk). lia.
    + apply IH.
      * by apply fire_booked.
      * by apply (step_counted EvTimer).
      * by apply fire_live.
      * by rewrite (step_concurrency EvTimer w : concurrency (this (fire w)) = _).
      * pose proof (fire_backlog w Ht). lia.
Qed.

End Awaiting.

(** ** The log of a run *)

Section RunLog.

Lemma snapshots_app l1 l2 : snapshots (l1 ++ l2) = snapshots l1 ++ snapshots l2.
Proof. apply omap_app. Qed.

(** The continuation never admits a task itself: with tasks queued it
    arms a timer, with none queued its [process()] returns at the guard. *)
Lemma resume_eq e w :
  resume e w =
  {| this := {| concurrency := concurrency (this w); delay := delay (this w);
                queue := queue (this w); running := running (this w) - 1;
                AttendanceQueue.results := AttendanceQueue.results (this w);
                onProgress := onProgress (this w) |};
     in_flight := in_flight w;
     timers := match queue (this w) with [] => timers w | _ => S (timers w) end;
     promises := settle_promise (promise e) (t_outcome (task e)) (promises w);
     log := log w ++ t_finish (task e) ++
            match t_outcome (task e), onProgress (this w) with
            | Fulfilled r, Some callback =>
                callback {| completed := Z.of_nat (length (AttendanceQueue.results (this w))) + 1;
                            snap_total := Z.of_nat (length (AttendanceQueue.results (this w)))
                                          + Z.of_nat (length (queue (this w)))
                                          + running (this w);
                            result := r |}
            | _, _ => []
            end |}.
Proof.
  unfold resume. destruct (queue (this w)) as [|e0 q0] eqn:Hq; simpl.
  - unfold process. simpl. by rewrite orb_true_r.
  - done.
Qed.

Lemma process_logged base es w : logged base es w → logged base es (process w).
Proof.
  intros [H1 H2 H3 H4 H5 (delta & Hlog & Hsrc & Hcount & Hrep)].
  pose proof (process_waiting w) as Hp.
  destruct (process_cases w) as [[Heq _]|(e & rest & Hq & _ & Heq)];
    rewrite Heq in *; [by split; eauto|].
  split; simpl; try done.
  - apply process_counted in H3. by rewrite Heq in H3.
  - intros e' He'. apply H5. by rewrite <- Hp.
  - assert (He : e ∈ es).
    { apply H5. unfold waiting. rewrite Hq. left. }
    destruct (H4 e He) as (Hs & _ & _).
    exists (delta ++ t_start (task e)). split; [by rewrite Hlog, (assoc_L (++))|].
    rewrite snapshots_app, Hs, app_nil_r, (Permutation_length Hp).
    split; [|done]. apply Forall_app. split; [done|].
    apply Forall_forall. intros fx Hfx. right. eauto.
Qed.

Lemma fire_logged base es w : logged base es w → logged base es (fire w).
Proof.
  unfold fire. destruct (timers w); [done|]. intros H.
  apply process_logged. destruct H. by split.
Qed.

Lemma settle_fields k e w :
  in_flight w !! k = Some e →
  AttendanceQueue.results (this (settle k w)) = AttendanceQueue.results (this w) ∧
  onProgress (this (settle k w)) = onProgress (this w) ∧
  log (settle k w) =
    log w ++ t_finish (task e) ++
    match t_outcome (task e), onProgress (this w) with
    | Fulfilled r, Some callback =>
        callback {| completed := Z.of_nat (length (AttendanceQueue.results (this w))) + 1;
                    snap_total := Z.of_nat (length (AttendanceQueue.results (this w)))
                                  + Z.of_nat (length (queue (this w)))
                                  + running (this w);
                    result := r |}
    | _, _ => []
    end.
Proof. intros Hk. unfold settle. by rewrite Hk, resume_eq. Qed.

Lemma settle_logged base es k w : logged base es w → logged base es (settle k w).
Proof.
  intros H. pose proof (settle_counted k w (lg_counted _ _ _ H)) as Hc.
  destruct (in_flight w !! k) as [e|] eqn:Hk; [|unfold settle; by rewrite Hk].
  pose proof (settle_waiting _ _ _ Hk) as Hp.
  destruct (settle_fields _ _ _ Hk) as (Hres & Hcb & Hlg).
  destruct H as [H1 H2 H3 H4 H5 (delta & Hlog & Hsrc & Hcount & Hrep)].
  assert (He : e ∈ es). { apply H5. rewrite Hp. left. }
  destruct (H4 e He) as (_ & Hf & r & Hr).
  assert (Hlen : length (waiting w) = S (length (waiting (settle k w)))).
  { by rewrite (Permutation_length Hp). }
  assert (Hrun : Z.of_nat (length (queue (this w))) + running (this w)
                 = Z.of_nat (length (waiting w))).
  { unfold counted in H3. unfold waiting. rewrite H3, length_app. lia. }
  split; try done; try congruence.
  - intros e' He'. apply H5. rewrite Hp. by right.
  - rewrite Hlg, Hr, H2, H1, Hlog. unfold progress_callback.
    exists (delta ++ t_finish (task e) ++
            [SetProgress (VNum 1) (VNum (Z.of_nat (length (waiting w))))]).
    split.
    { rewrite <- (assoc_L (++)). simpl. repeat f_equal. lia. }
    rewrite !snapshots_app, Hf. simpl. rewrite length_app. simpl.
    split; [|split; [lia|]].
    + apply Forall_app. split; [done|]. apply Forall_app. split.
      * apply Forall_forall. intros fx Hfx. right. eauto.
      * apply Forall_singleton. left. eauto.
    + apply Forall_app. split; [done|]. apply Forall_singleton.
      split; [done|]. eexists. split; [done|]. lia.
Qed.

Lemma reported_mono n m s : (n ≤ m)%nat → reported n s → reported m s.
Proof. intros Hnm (Hc & z & Ht & Hz). split; [done|]. exists z. split; [done|lia]. Qed.

Lemma add_waiting tk w :
  waiting (snd (add tk w)) ≡ₚ
  waiting w ++ [{| task := tk; promise := length (promises w) |}].
Proof.
  unfold add. simpl. rewrite process_waiting. unfold waiting. simpl.
  rewrite <- !(assoc_L (++)). apply Permutation_app_head, Permutation_app_comm.
Qed.

Lemma add_logged base es tk w :
  plain tk → logged base es w →
  logged base (es ++ [{| task := tk; promise := length (promises w) |}])
         (snd (add tk w)).
Proof.
  intros Htk [H1 H2 H3 H4 H5 (delta & Hlog & Hsrc & Hcount & Hrep)].
  unfold add. simpl. apply process_logged.
  set (e := {| task := tk; promise := length (promises w) |}).
  split; simpl; try done.
  - intros e' He'. apply elem_of_app in He' as [He'|He']; [by apply H4|].
    apply list_elem_of_singleton in He'. by subst e'.
  - intros e'. unfold waiting. simpl. rewrite !elem_of_app.
    intros [[Hq|Hn]|Hf]; [left; apply H5, elem_of_app; by left|by right|].
    left. apply H5, elem_of_app. by right.
  - exists delta. split; [done|]. split; [|split].
    + eapply Forall_impl; [exact Hsrc|]. intros fx [Hs|(e' & He' & Hfx)]; [by left|].
      right. exists e'. split; [apply elem_of_app; by left|done].
    + unfold waiting in *. simpl. rewrite !length_app in *. simpl. lia.
    + eapply Forall_impl; [exact Hrep|]. intros s. apply reported_mono.
      rewrite length_app. lia.
Qed.

End RunLog.

(** ** A run of the queue path *)

Section QueueRun.

Variable env : Env.
Variable attendanceId : string.
Variable userCookies : list jsval.

Lemma user_task_plain index user : plain (user_task env attendanceId userCookies index user).
Proof.
  unfold plain, user_task, attendanceTask.
  destruct (negb _); [by eauto|]. destruct (replies env index); by eauto.
Qed.

Lemma settle_run_inv base es k w : run_inv base es w → run_inv base es (settle k w).
Proof.
  intros [H1 H2 H3]. split;
    [by apply settle_booked | by apply settle_live | by apply settle_logged].
Qed.

Lemma fire_run_inv base es w : run_inv base es w → run_inv base es (fire w).
Proof.
  intros [H1 H2 H3]. split;
    [by apply fire_booked | by apply fire_live | by apply fire_logged].
Qed.

Lemma add_backlog tk w : backlog (snd (add tk w)) = (backlog w + 2)%nat.
Proof.
  unfold backlog. rewrite (Permutation_length (add_waiting tk w)), length_app.
  unfold add. simpl. rewrite process_timers. simpl. lia.
Qed.

Lemma add_concurrency tk w :
  concurrency (this (snd (add tk w))) = concurrency (this w).
Proof. apply (step_concurrency (EvAdd tk)). Qed.

Lemma add_tasks_spec users : ∀ index w es base,
  run_inv base es w →
  ∃ es' w',
    add_tasks env attendanceId userCookies index users w = (promise <$> es', w') ∧
    task <$> es' = imap (λ i u, user_task env attendanceId userCookies (index + i) u) users ∧
    run_inv base (es ++ es') w' ∧
    concurrency (this w') = concurrency (this w) ∧
    backlog w' = (backlog w + 2 * length users)%nat.
Proof.
  induction users as [|user users IH]; intros index w es base Hinv.
  - exists [], w. rewrite app_nil_r. simpl.
    split; [done|]. split; [done|]. split; [done|]. split; [done|]. lia.
  - change (add_tasks env attendanceId userCookies index (user :: users) w)
      with (let '(p, w1) := add (user_task env attendanceId userCookies index user) w in
            let '(ps, w2) := add_tasks env attendanceId userCookies (S index) users w1 in
            (p :: ps, w2)).
    destruct (add (user_task env attendanceId userCookies index user) w) as [p w1] eqn:Hadd.
    assert (Hp : p = length (promises w)) by (unfold add in Hadd; congruence).
    assert (Hw1 : w1 = snd (add (user_task env attendanceId userCookies index user) w)) by (by rewrite Hadd).
    destruct Hinv as [H1 H2 H3].
    destruct (IH (S index) w1 (es ++ [{| task := user_task env attendanceId userCookies index user; promise := p |}]) base)
      as (es' & w' & Heq & Htasks & Hinv' & Hc & Hb).
    { subst p w1. split;
        [by apply add_booked | by apply add_live
         | apply add_logged; [apply user_task_plain | done]]. }
    rewrite Heq.
    exists ({| task := user_task env attendanceId userCookies index user; promise := p |} :: es'), w'.
    rewrite <- (assoc_L (++)) in Hinv'.
    split; [done|]. split; [|split; [done|split]].
    + rewrite fmap_cons, Htasks. simpl. rewrite Nat.add_0_r. f_equal.
      apply imap_ext. intros i u _. simpl. f_equal. lia.
    + rewrite Hc, Hw1. apply add_concurrency.
    + rewrite Hb, Hw1, add_backlog. simpl. lia.
Qed.

Lemma collect_spec settled : ∀ users0 users index acc,
  drop index users0 = users → length settled = length users →
  collect users0 index settled acc = inl (acc ++ zip_with settled_result users settled).
Proof.
  induction settled as [|o settled IH]; intros users0 users index acc Hdrop Hlen; simpl.
  - destruct users; [|done]. by rewrite app_nil_r.
  - destruct users as [|user users]; [done|].
    assert (Hu : users0 !! index = Some user).
    { pose proof (lookup_drop users0 index 0) as Hl.
      rewrite Hdrop, Nat.add_0_r in Hl. by rewrite <- Hl. }
    assert (Hd : drop (S index) users0 = users).
    { rewrite (drop_S _ _ _ Hu) in Hdrop. congruence. }
    simpl in Hlen. injection Hlen as Hlen.
    destruct o as [value|reason]; simpl.
    + rewrite (IH users0 users) by done. by rewrite <- (assoc_L (++)).
    + rewrite Hu, (IH users0 users) by done. by rewrite <- (assoc_L (++)).
Qed.

End QueueRun.

Section QueueRunResult.

Lemma await_settled fuel sched tasks : ∀ tick w rs w',
  await_allSettled fuel sched tick tasks w = Some (rs, w') →
  allSettled tasks w' = Some rs.
Proof.
  induction fuel as [|fuel IH]; intros tick w rs w'; simpl;
    destruct (allSettled tasks w) eqn:Hall; try congruence.
  apply IH.
Qed.

Lemma allSettled_drained es w rs :
  booked es w → allSettled (promise <$> es) w = Some rs → waiting w = [].
Proof.
  intros [_ H2 _] Hall.
  destruct (waiting w) as [|e l] eqn:Hw; [done|]. exfalso.
  destruct (H2 e) as [He Hp]; [rewrite ?Hw; left|].
  assert (His : is_Some (allSettled (promise <$> es) w)) by eauto.
  apply mapM_is_Some_1 in His. rewrite Forall_forall in His.
  destruct (His (promise e)) as [x Hx].
  - apply list_elem_of_fmap. eauto.
  - simpl in Hx. by rewrite Hp in Hx.
Qed.

Lemma zip_with_imap {A B C D} (g : A → C → D) (h : B → C) (l : list A) :
  ∀ f : nat → A → B,
  zip_with g l (h <$> imap f l) = imap (λ i x, g x (h (f i x))) l.
Proof.
  induction l as [|x l IH]; intros f; simpl; [done|]. f_equal. apply IH.
Qed.

(** On a queue with no started task left over and a ceiling of at least
    one, the queue path returns, whatever the schedule, once the fuel
    covers two turns per user and one per stale timer; it returns the
    closed-form report, and its log is the prelude, the effects of the
    tasks and of the progress callback, and the epilogue. *)
Lemma processQueueAttendance_returns env users attendanceId userCookies w :
  in_flight w = [] →
  1 ≤ concurrency (this w) →
  (2 * length users + timers w ≤ fuel env)%nat →
  ∃ w' es delta,
    processQueueAttendance env users attendanceId userCookies w
      = Some (queue_report env attendanceId userCookies users, w') ∧
    task <$> es = imap (user_task env attendanceId userCookies) users ∧
    log w' = log w ++ queue_prelude users ++ delta
             ++ queue_epilogue (queue_report env attendanceId userCookies users) ∧
    Forall (sourced es) delta ∧
    length (snapshots delta) = length users ∧
    Forall (reported (length users)) (snapshots delta) ∧
    in_flight w' = [] ∧
    concurrency (this w') = concurrency (this w).
Proof.
  intros Hrest Hcap Hfuel. unfold processQueueAttendance.
  match goal with |- context [add_tasks _ _ _ _ _ ?x] => set (w1 := x) end.
  assert (Hinv : run_inv (log w1) [] w1).
  { split; [split|..|split]; unfold waiting, live, counted; simpl;
      rewrite ?Hrest; try done.
    - apply NoDup_nil_2.
    - intros e He. by apply elem_of_nil in He.
    - intros e He. by apply elem_of_nil in He.
    - intros e He. by apply elem_of_nil in He.
    - exists []. by rewrite app_nil_r. }
  destruct (add_tasks_spec env attendanceId userCookies users 0 w1 [] (log w1) Hinv)
    as (es & w2 & -> & Htasks & [Hb Hl Hlg] & Hc & Hbl). simpl in Hb, Hl, Hlg.
  assert (Hlen : length es = length users).
  { by rewrite <- (length_fmap task), Htasks, length_imap. }
  destruct (await_returns es (sched env) (fuel env) 0%nat w2 Hb (lg_counted _ _ _ Hlg) Hl)
    as [w3 Hawait].
  { by rewrite Hc. }
  { rewrite Hbl. unfold backlog, waiting. simpl. rewrite Hrest. simpl. lia. }
  rewrite Hawait.
  assert (Hinv3 : run_inv (log w1) es w3
                  ∧ concurrency (this w3) = concurrency (this w2)).
  { eapply (await_invariant
              (λ x, run_inv (log w1) es x
                    ∧ concurrency (this x) = concurrency (this w2)));
      [| |split; [by split|done]|exact Hawait].
    - intros k x [Hi Hcx]. split; [by apply settle_run_inv|].
      by rewrite (step_concurrency (EvSettle k) x : concurrency (this (settle k x)) = _).
    - intros x [Hi Hcx]. split; [by apply fire_run_inv|].
      by rewrite (step_concurrency EvTimer x : concurrency (this (fire x)) = _). }
  destruct Hinv3 as [[Hb3 _ Hlg3] Hc3].
  pose proof (allSettled_drained _ _ _ Hb3 (await_settled _ _ _ _ _ _ _ Hawait)) as Hw3.
  rewrite (collect_spec _ users users 0 []); [|done|by rewrite length_fmap].
  rewrite (list_fmap_compose task t_outcome), Htasks, zip_with_imap. simpl.
  destruct Hlg3 as [_ _ _ _ _ (delta & Hlog & Hsrc & Hcount & Hrep)].
  eexists _, es, delta. split; [reflexivity|]. split; [done|].
  rewrite Hw3, Hlen in Hcount. rewrite Hlen in Hrep.
  split; [|split; [done|split; [simpl in Hcount; lia|split; [done|split]]]].
  - simpl. rewrite Hlog. unfold w1. simpl. by rewrite <- !(assoc_L (++)).
  - simpl. unfold waiting in Hw3. by apply app_eq_nil in Hw3 as [_ ?].
  - simpl. by rewrite Hc3, Hc.
Qed.

End QueueRunResult.

(** ** Where the effects of a run come from *)

Section Origins.

Variable env : Env.
Variable attendanceId : string.
Variable userCookies : list jsval.

(** The effects of a user's task: updates of its own row, and one request
    tagged with its index when its cookie is present. *)
Lemma user_task_effects index user fx :
  fx ∈ t_start (user_task env attendanceId userCookies index user) ∨
  fx ∈ t_finish (user_task env attendanceId userCookies index user) →
  (∃ r, fx = SetResultAt index r) ∨
  (∃ body, fx = Fetch "/api/mark-attendance" (Some index) body ∧
           cookie_absent userCookies index = false).
Proof.
  unfold user_task, attendanceTask, cookie_absent.
  destruct (negb _) eqn:Hneg; [|destruct (replies env index)]; simpl;
    rewrite ?list_elem_of_singleton, ?elem_of_nil; intros [->|H]; eauto; done.
Qed.

Lemma sourced_origin es users fx :
  task <$> es = imap (user_task env attendanceId userCookies) users →
  sourced es fx →
  (∃ c t, fx = SetProgress c t) ∨
  ∃ index user, users !! index = Some user ∧
    ((∃ r, fx = SetResultAt index r) ∨
     (∃ body, fx = Fetch "/api/mark-attendance" (Some index) body ∧
              cookie_absent userCookies index = false)).
Proof.
  intros Htasks [Hs|(e & He & Hfx)]; [by left|]. right.
  assert (Ht : task e ∈ imap (user_task env attendanceId userCookies) users).
  { rewrite <- Htasks. apply list_elem_of_fmap. eauto. }
  apply list_elem_of_lookup in Ht as [index Ht].
  rewrite list_lookup_imap in Ht.
  destruct (users !! index) as [user|] eqn:Hu; [|done].
  injection Ht as Ht. exists index, user. split; [done|].
  rewrite <- Ht in Hfx. by apply (user_task_effects index user).
Qed.

Lemma sourced_queue_effect es users delta :
  task <$> es = imap (user_task env attendanceId userCookies) users →
  Forall (sourced es) delta →
  Forall (λ fx, queue_effect fx = true) delta.
Proof.
  intros Htasks Hsrc. eapply Forall_impl; [exact Hsrc|]. intros fx Hfx.
  destruct (sourced_origin _ _ _ Htasks Hfx)
    as [(c & t & ->)|(i & user & _ & [(r & ->)|(body & -> & _)])]; done.
Qed.

End Origins.

(** ** The report of the queue path *)

Lemma success_failure_count rs :
  (count_success rs + failure_count rs = length rs)%nat.
Proof.
  unfold count_success, failure_count.
  induction rs as [|r rs IH]; [done|].
  rewrite !filter_cons. destruct (is_str (code r) "SUCCESS") eqn:Hc;
    repeat case_decide; try done; simpl; lia.
Qed.

Lemma is_str_spec v lit : is_str v lit = true ↔ v = VStr lit.
Proof.
  destruct v; simpl; try (split; [done|congruence]).
  rewrite String.eqb_eq. split; congruence.
Qed.

Lemma attendance_result_terminal user index attendanceId userCookies reply r :
  t_outcome (attendanceTask user index attendanceId userCookies reply) = Fulfilled r →
  rname r = VStr (name user) ∧ status r ≠ "⏳ Queued...".
Proof.
  unfold attendanceTask. destruct (negb _); [intros [= <-]; by split|].
  destruct reply as [|body]; [intros [= <-]; by split|].
  intros [= <-]. simpl. split; [done|].
  destruct (is_str _ "SUCCESS"); [done|].
  destruct (is_str _ "ATTENDANCE_NOT_VALID"); [done|].
  intros H. discriminate H.
Qed.

(** X13. On a queue with no task in flight and a ceiling of at least one,
    which no other call uses meanwhile, the queue path returns, whatever
    the order of resumptions, and its
    report holds one row per input user: the outcome of that user's task,
    under that user's name and never the ['⏳ Queued...'] placeholder; and
    [successful + failed = total = users.length]. *)
Theorem queue_report_covers_every_user env users attendanceId userCookies w :
  in_flight w = [] →
  1 ≤ concurrency (this w) →
  (2 * length users + timers w ≤ fuel env)%nat →
  ∃ report w' s f,
    processQueueAttendance env users attendanceId userCookies w = Some (report, w') ∧
    length (results report) = length users ∧
    (∀ index user, users !! index = Some user →
       ∃ r, results report !! index = Some r ∧
            t_outcome (user_task env attendanceId userCookies index user) = Fulfilled r ∧
            rname r = VStr (name user) ∧
            status r ≠ "⏳ Queued...") ∧
    total report = VNum (Z.of_nat (length users)) ∧
    successful report = VNum s ∧
    failed report = VNum f ∧
    0 ≤ s ∧ 0 ≤ f ∧ s + f = Z.of_nat (length users).
Proof.
  intros Hrest Hcap Hfuel.
  destruct (processQueueAttendance_returns env users attendanceId userCookies w
              Hrest Hcap Hfuel) as (w' & es & delta & Hrun & _).
  set (rs := imap (user_result env attendanceId userCookies) users).
  assert (Hlen : length rs = length users) by apply length_imap.
  pose proof (success_failure_count rs) as Hsum.
  exists (queue_report env attendanceId userCookies users), w',
    (Z.of_nat (count_success rs)), (Z.of_nat (length rs) - Z.of_nat (count_success rs)).
  split; [done|]. simpl. fold rs. rewrite Hlen.
  split; [done|]. split.
  - intros index user Hu. unfold rs. rewrite list_lookup_imap, Hu. simpl.
    eexists. split; [done|]. unfold user_result.
    destruct (user_task_plain env attendanceId userCookies index user)
      as (_ & _ & r & Hr).
    rewrite Hr. simpl. split; [done|].
    by eapply attendance_result_terminal.
  - repeat split; try done; lia.
Qed.

Lemma queue_report_covers_every_user_witness :
  ∃ report w' s f,
    processQueueAttendance sample_env sample_users "QR-1" sample_cookies (boot hook_queue)
      = Some (report, w') ∧
    length (results report) = length sample_users ∧
    (∀ index user, sample_users !! index = Some user →
       ∃ r, results report !! index = Some r ∧
            t_outcome (user_task sample_env "QR-1" sample_cookies index user) = Fulfilled r ∧
            rname r = VStr (name user) ∧
            status r ≠ "⏳ Queued...") ∧
    total report = VNum (Z.of_nat (length sample_users)) ∧
    successful report = VNum s ∧
    failed report = VNum f ∧
    0 ≤ s ∧ 0 ≤ f ∧ s + f = Z.of_nat (length sample_users).
Proof.
  apply (queue_report_covers_every_user sample_env sample_users "QR-1"
           sample_cookies (boot hook_queue));
    [reflexivity | simpl; lia | simpl; lia].
Defined.

(** C2. The results of the queue path's report are in input order: the
    result at each index is the one of the user at that index, and the
    report is the same under every order of resumptions. *)
Theorem queue_results_in_input_order env sched' fuel' users attendanceId userCookies w :
  in_flight w = [] →
  1 ≤ concurrency (this w) →
  (2 * length users + timers w ≤ fuel env)%nat →
  (2 * length users + timers w ≤ fuel')%nat →
  ∃ report w1 w2,
    processQueueAttendance env users attendanceId userCookies w = Some (report, w1) ∧
    processQueueAttendance (reschedule env sched' fuel') users attendanceId userCookies w
      = Some (report, w2) ∧
    (∀ index, results report !! index
              = user_result env attendanceId userCookies index <$> users !! index) ∧
    rname <$> results report = (λ user, VStr (name user)) <$> users.
Proof.
  intros Hrest Hcap Hfuel Hfuel'.
  destruct (processQueueAttendance_returns env users attendanceId userCookies w
              Hrest Hcap Hfuel) as (w1 & _ & _ & Hrun1 & _).
  destruct (processQueueAttendance_returns (reschedule env sched' fuel') users
              attendanceId userCookies w Hrest Hcap Hfuel') as (w2 & _ & _ & Hrun2 & _).
  exists (queue_report env attendanceId userCookies users), w1, w2.
  split; [done|]. split; [exact Hrun2|]. simpl. split.
  - intros index. apply list_lookup_imap.
  - apply list_eq. intros index.
    rewrite !list_lookup_fmap, list_lookup_imap.
    destruct (users !! index) as [user|]; [|done]. simpl. f_equal.
    unfold user_result, user_task, attendanceTask.
    destruct (negb _); [done|]. by destruct (replies env index).
Qed.

Lemma queue_results_in_input_order_witness :
  ∃ report w1 w2,
    processQueueAttendance sample_env sample_users "QR-1" sample_cookies (boot hook_queue)
      = Some (report, w1) ∧
    processQueueAttendance (reschedule sample_env (λ tick, (3 * tick + 1)%nat) 9)
      sample_users "QR-1" sample_cookies (boot hook_queue) = Some (report, w2) ∧
    (∀ index, results report !! index
              = user_result sample_env "QR-1" sample_cookies index <$> sample_users !! index) ∧
    rname <$> results report = (λ user, VStr (name user)) <$> sample_users.
Proof.
  apply (queue_results_in_input_order sample_env (λ tick, (3 * tick + 1)%nat) 9
           sample_users "QR-1" sample_cookies (boot hook_queue));
    [reflexivity | simpl; lia | simpl; lia | simpl; lia].
Defined.

(** C10. In the queue path's report [successful] is the number of results
    whose code is ['SUCCESS'], [failed] is [total - successful], which is
    the number of all other results, whatever their code. *)
Theorem queue_report_counts env users attendanceId userCookies w :
  in_flight w = [] →
  1 ≤ concurrency (this w) →
  (2 * length users + timers w ≤ fuel env)%nat →
  ∃ report w',
    processQueueAttendance env users attendanceId userCookies w = Some (report, w') ∧
    total report = VNum (Z.of_nat (length (results report))) ∧
    successful report = VNum (Z.of_nat (count_success (results report))) ∧
    failed report = VNum (Z.of_nat (length (results report))
                          - Z.of_nat (count_success (results report))) ∧
    failed report = VNum (Z.of_nat (failure_count (results report))) ∧
    (∀ r, is_str (code r) "SUCCESS" = true ↔ code r = VStr "SUCCESS").
Proof.
  intros Hrest Hcap Hfuel.
  destruct (processQueueAttendance_returns env users attendanceId userCookies w
              Hrest Hcap Hfuel) as (w' & _ & _ & Hrun & _).
  exists (queue_report env attendanceId userCookies users), w'.
  split; [done|]. simpl. repeat split; try (by apply is_str_spec).
  f_equal. pose proof (success_failure_count
    (imap (user_result env attendanceId userCookies) users)). lia.
Qed.

Lemma queue_report_counts_witness :
  ∃ report w',
    processQueueAttendance sample_env sample_users "QR-1" sample_cookies (boot hook_queue)
      = Some (report, w') ∧
    total report = VNum (Z.of_nat (length (results report))) ∧
    successful report = VNum (Z.of_nat (count_success (results report))) ∧
    failed report = VNum (Z.of_nat (length (results report))
                          - Z.of_nat (count_success (results report))) ∧
    failed report = VNum (Z.of_nat (failure_count (results report))) ∧
    (∀ r, is_str (code r) "SUCCESS" = true ↔ code r = VStr "SUCCESS").
Proof.
  apply (queue_report_counts sample_env sample_users "QR-1" sample_cookies
           (boot hook_queue)); [reflexivity | simpl; lia | simpl; lia].
Defined.

(** ** Missing session cookies *)




(** ** Batch path and fallback *)

Lemma occurrences_app p l1 l2 :
  occurrences p (l1 ++ l2) = (occurrences p l1 + occurrences p l2)%nat.
Proof. unfold occurrences. by rewrite filter_app, length_app. Qed.

Lemma occurrences_none p q l :
  (∀ e, q e = true → p e = false) →
  Forall (λ e, q e = true) l → occurrences p l = O.
Proof.
  intros Hpq. unfold occurrences. induction 1 as [|e l He _ IH]; [done|].
  rewrite filter_cons. rewrite (Hpq e He). by case_decide.
Qed.

Lemma queue_effect_not_log msg e : queue_effect e = true → is_log msg e = false.
Proof. by destruct e. Qed.

Lemma queue_effect_not_batch e : queue_effect e = true → is_batch_fetch e = false.
Proof.
  destruct e as [| | | | | | |url [i|] body]; try done. simpl.
  intros ->%String.eqb_eq. done.
Qed.

(** The log of a queue run contains neither the fallback message nor a
    request to the batch endpoint. *)
Lemma queue_run_log env users attendanceId userCookies w :
  in_flight w = [] →
  1 ≤ concurrency (this w) →
  (2 * length users + timers w ≤ fuel env)%nat →
  ∃ w' delta,
    processQueueAttendance env users attendanceId userCookies w
      = Some (queue_report env attendanceId userCookies users, w') ∧
    log w' = log w ++ delta ∧
    occurrences (is_log fallback_message) delta = O ∧
    occurrences is_batch_fetch delta = O ∧
    in_flight w' = [] ∧
    concurrency (this w') = concurrency (this w).
Proof.
  intros Hrest Hcap Hfuel.
  destruct (processQueueAttendance_returns env users attendanceId userCookies w
              Hrest Hcap Hfuel)
    as (w' & es & delta & Hrun & Htasks & Hlog & Hsrc & _ & _ & Hrest' & Hc).
  pose proof (sourced_queue_effect _ _ _ _ _ _ Htasks Hsrc) as Hq.
  eexists w', _. split; [exact Hrun|]. split; [exact Hlog|].
  rewrite !occurrences_app.
  rewrite (occurrences_none _ _ _ (queue_effect_not_log fallback_message) Hq).
  rewrite (occurrences_none _ _ _ queue_effect_not_batch Hq).
  by repeat split.
Qed.

(** The batch path after its [try] block threw. *)
Lemma batch_fallback_log env users attendanceId userCookies w :
  in_flight w = [] →
  1 ≤ concurrency (this w) →
  (2 * length users + timers w ≤ fuel env)%nat →
  batch_try (batch_reply env) = None →
  ∃ report w' delta,
    processBatchAttendance env users attendanceId userCookies w = Some (report, w') ∧
    log w' = log w ++ delta ∧
    occurrences is_batch_fetch delta = 1%nat.
Proof.
  intros Hrest Hcap Hfuel Hthrow. unfold processBatchAttendance. rewrite Hthrow.
  match goal with |- context [processQueueAttendance _ _ _ _ ?x] => set (w_mid := x) end.
  destruct (queue_run_log env users attendanceId userCookies w_mid)
    as (w_queue & delta & Hrun & Hlog & Hfb & Hbf & _); try done.
  rewrite Hrun. eexists _, _, _. split; [reflexivity|].
  split; [simpl; rewrite Hlog; unfold w_mid; simpl;
          rewrite <- !(assoc_L (++)); reflexivity|].
  rewrite !occurrences_app, Hbf. reflexivity.
Qed.



(** ** The main function *)

(** C6, as stated, fails: with three users and two cookies the promise of
    [processAttendance] is fulfilled with [undefined]; nothing is raised. *)
Lemma mismatch_is_not_raised :
  processAttendance "batch" sample_env three_users "QR-1"
    (Some [VStr "sid=1"; VStr "sid=2"]) (boot hook_queue)
  = Some (Fulfilled None, emit [Alert no_cookies_alert] (boot hook_queue)) ∧
  ¬ ∃ reason w',
      processAttendance "batch" sample_env three_users "QR-1"
        (Some [VStr "sid=1"; VStr "sid=2"]) (boot hook_queue)
      = Some (Rejected reason, w').
Proof. split; [reflexivity|]. intros (reason & w' & H). discriminate H. Qed.

(** C6, amended. With no users, or with cookies that are missing or not as
    many as the users, [processAttendance] shows one alert and returns
    [undefined]; it raises nothing, sends no request and leaves the queue
    untouched. *)
Theorem bad_input_alerts_and_returns processingMethod env users attendanceId userCookies w :
  rejected_input users userCookies = true →
  ∃ msg,
    processAttendance processingMethod env users attendanceId userCookies w
      = Some (Fulfilled None, emit [Alert msg] w) ∧
    (msg = no_users_alert ∨ msg = no_cookies_alert) ∧
    log (emit [Alert msg] w) = log w ++ [Alert msg] ∧
    this (emit [Alert msg] w) = this w ∧
    in_flight (emit [Alert msg] w) = in_flight w.
Proof.
  unfold rejected_input, processAttendance. intros H.
  destruct (Nat.eqb (length users) 0);
    [exists no_users_alert; repeat split; auto|].
  destruct userCookies as [cookies|];
    [|exists no_cookies_alert; repeat split; auto].
  simpl in H. rewrite H. exists no_cookies_alert; repeat split; auto.
Qed.

Lemma bad_input_alerts_and_returns_witness :
  ∃ msg,
    processAttendance "batch" sample_env three_users "QR-1"
      (Some [VStr "sid=1"; VStr "sid=2"]) (boot hook_queue)
      = Some (Fulfilled None, emit [Alert msg] (boot hook_queue)) ∧
    (msg = no_users_alert ∨ msg = no_cookies_alert) ∧
    log (emit [Alert msg] (boot hook_queue)) = log (boot hook_queue) ++ [Alert msg] ∧
    this (emit [Alert msg] (boot hook_queue)) = this (boot hook_queue) ∧
    in_flight (emit [Alert msg] (boot hook_queue)) = in_flight (boot hook_queue).
Proof.
  apply (bad_input_alerts_and_returns "batch" sample_env three_users "QR-1"
           (Some [VStr "sid=1"; VStr "sid=2"]) (boot hook_queue)).
  reflexivity.
Defined.

(** The batch path sends exactly one request to the batch endpoint. *)
Lemma batch_run_log env users attendanceId userCookies w :
  in_flight w = [] →
  1 ≤ concurrency (this w) →
  (2 * length users + timers w ≤ fuel env)%nat →
  ∃ report w' delta,
    processBatchAttendance env users attendanceId userCookies w = Some (report, w') ∧
    log w' = log w ++ delta ∧
    occurrences is_batch_fetch delta = 1%nat.
Proof.
  intros Hrest Hcap Hfuel.
  destruct (batch_try (batch_reply env)) as [[report fx]|] eqn:Htry.
  - unfold processBatchAttendance. rewrite Htry.
    eexists _, _, _. split; [reflexivity|]. simpl.
    split; [rewrite <- !(assoc_L (++)); reflexivity|].
    unfold batch_try in Htry. repeat case_match; try done.
    injection Htry as _ <-. reflexivity.
  - destruct (batch_fallback_log env users attendanceId userCookies w
                Hrest Hcap Hfuel Htry) as (report & w' & delta & H1 & H2 & H3).
    by exists report, w', delta.
Qed.

Lemma batch_chosen_spec processingMethod users :
  batch_chosen processingMethod users = true ↔
  processingMethod = "batch" ∧ (5 ≤ length users)%nat.
Proof.
  unfold batch_chosen. rewrite andb_true_iff, String.eqb_eq, Nat.leb_le. done.
Qed.

(** C7, as stated, fails in both directions.  With six users and the
    batch endpoint unreachable, [processAttendance] still takes the batch
    path and sends the batch request; with six users, the batch endpoint
    answering and the method set to ['queue'], it takes the queue path and
    never contacts the batch endpoint. *)
Lemma selection_ignores_availability :
  (5 ≤ length six_users)%nat ∧
  endpoint_available roomy_env = false ∧
  processAttendance "batch" roomy_env six_users "QR-1" (Some six_cookies) (boot hook_queue)
    = returned (processBatchAttendance roomy_env six_users "QR-1" six_cookies
                  (boot hook_queue)) ∧
  occurrences is_batch_fetch
    (log_of (processAttendance "batch" roomy_env six_users "QR-1" (Some six_cookies)
               (boot hook_queue))) = 1%nat ∧
  endpoint_available served_env = true ∧
  processAttendance "queue" served_env six_users "QR-1" (Some six_cookies) (boot hook_queue)
    = returned (processQueueAttendance served_env six_users "QR-1" six_cookies
                  (boot hook_queue)) ∧
  processAttendance "queue" served_env six_users "QR-1" (Some six_cookies) (boot hook_queue)
    ≠ None ∧
  occurrences is_batch_fetch
    (log_of (processAttendance "queue" served_env six_users "QR-1" (Some six_cookies)
               (boot hook_queue))) = 0%nat.
Proof.
  split; [simpl; lia|]. split; [reflexivity|].
  split; [vm_compute; reflexivity|]. split; [vm_compute; reflexivity|].
  split; [reflexivity|]. split; [vm_compute; reflexivity|].
  split; [vm_compute; discriminate|vm_compute; reflexivity].
Qed.

(** C7, amended. On valid input [processAttendance] runs the batch path
    exactly when the hook's [processingMethod] is ['batch'] (its initial
    value) and there are at least five users, and the queue path otherwise;
    it does so in every state of the queue and whether or not the batch
    endpoint can be reached.  On a queue at rest the call returns the chosen
    path's report, and the batch endpoint is contacted (once) in the first
    case only. *)
Theorem method_selection processingMethod env users attendanceId cookies w :
  users ≠ [] →
  length cookies = length users →
  processAttendance processingMethod env users attendanceId (Some cookies) w
    = returned (if batch_chosen processingMethod users
                then processBatchAttendance env users attendanceId cookies w
                else processQueueAttendance env users attendanceId cookies w) ∧
  (batch_chosen processingMethod users = true ↔
   processingMethod = "batch" ∧ (5 ≤ length users)%nat) ∧
  (in_flight w = [] →
   1 ≤ concurrency (this w) →
   (2 * length users + timers w ≤ fuel env)%nat →
   ∃ report w' delta,
     processAttendance processingMethod env users attendanceId (Some cookies) w
       = Some (Fulfilled (Some report), w') ∧
     (if batch_chosen processingMethod users
      then processBatchAttendance env users attendanceId cookies w
      else processQueueAttendance env users attendanceId cookies w) = Some (report, w') ∧
     log w' = log w ++ delta ∧
     occurrences is_batch_fetch delta
       = (if batch_chosen processingMethod users then 1 else 0)%nat).
Proof.
  intros Hne Hlen.
  assert (Heq : processAttendance processingMethod env users attendanceId (Some cookies) w
                = returned (if batch_chosen processingMethod users
                            then processBatchAttendance env users attendanceId cookies w
                            else processQueueAttendance env users attendanceId cookies w)).
  { unfold processAttendance. destruct users as [|user users]; [done|].
    rewrite Hlen, Nat.eqb_refl.
    change (Nat.eqb (length (user :: users)) 0) with false. cbn [negb].
    fold (batch_chosen processingMethod (user :: users)).
    by destruct (batch_chosen processingMethod (user :: users)). }
  split; [exact Heq|]. split; [apply batch_chosen_spec|].
  intros Hrest Hcap Hfuel. rewrite Heq.
  destruct (batch_chosen processingMethod users).
  - destruct (batch_run_log env users attendanceId cookies w Hrest Hcap Hfuel)
      as (report & w' & delta & -> & Hlog & Hocc).
    by exists report, w', delta.
  - destruct (queue_run_log env users attendanceId cookies w Hrest Hcap Hfuel)
      as (w' & delta & -> & Hlog & _ & Hocc & _).
    by eexists _, w', delta.
Qed.

Lemma method_selection_witness :
  processAttendance "batch" roomy_env six_users "QR-1" (Some six_cookies) (boot hook_queue)
    = returned (if batch_chosen "batch" six_users
                then processBatchAttendance roomy_env six_users "QR-1" six_cookies
                       (boot hook_queue)
                else processQueueAttendance roomy_env six_users "QR-1" six_cookies
                       (boot hook_queue)) ∧
  (batch_chosen "batch" six_users = true ↔
   "batch" = "batch" ∧ (5 ≤ length six_users)%nat) ∧
  ∃ report w' delta,
    processAttendance "batch" roomy_env six_users "QR-1" (Some six_cookies) (boot hook_queue)
      = Some (Fulfilled (Some report), w') ∧
    (if batch_chosen "batch" six_users
     then processBatchAttendance roomy_env six_users "QR-1" six_cookies (boot hook_queue)
     else processQueueAttendance roomy_env six_users "QR-1" six_cookies (boot hook_queue))
      = Some (report, w') ∧
    log w' = log (boot hook_queue) ++ delta ∧
    occurrences is_batch_fetch delta
      = (if batch_chosen "batch" six_users then 1 else 0)%nat.
Proof.
  destruct (method_selection "batch" roomy_env six_users "QR-1" six_cookies
              (boot hook_queue)) as (Heq & Hiff & Hrun);
    [discriminate | reflexivity |].
  split; [exact Heq|]. split; [exact Hiff|].
  apply Hrun; [reflexivity | simpl; lia | simpl; lia].
Defined.

(** ** The concurrency ceiling *)

Lemma exec_capped tr : ∀ w,
  0 ≤ concurrency (this w) → capped w → capped (exec tr w).
Proof.
  induction tr as [|ev tr IH]; intros w Hc H; simpl; [done|].
  apply IH; [by rewrite step_concurrency | by apply step_capped].
Qed.

Lemma exec_counted tr : ∀ w,
  clears_at_rest tr w = true → counted w → counted (exec tr w).
Proof.
  induction tr as [|ev tr IH]; intros w Hrest H; simpl; [done|].
  simpl in Hrest. apply andb_true_iff in Hrest as [Hev Hrest].
  apply IH; [done|]. apply step_counted; [|done].
  destruct ev; try done. apply Nat.eqb_eq in Hev. by destruct (in_flight w).
Qed.

(** C3. The ceiling is passed when two invocations of the queue path
    overlap: the second one's [clear()] sets [running] to zero while the
    three tasks of the first are pending, three more are admitted, and six
    requests are in flight under a ceiling of three while the counter
    reads three. *)
Lemma overlapping_runs_exceed_ceiling :
  let w := exec (invocation roomy_env "QR-1" six_cookies four_users
                 ++ invocation roomy_env "QR-1" six_cookies four_users)
                (boot hook_queue) in
  concurrency (this w) = 3 ∧
  running (this w) = 3 ∧
  length (in_flight w) = 6%nat ∧
  ¬ (Z.of_nat (length (in_flight w)) ≤ concurrency (this w)).
Proof. vm_compute. repeat split; try done. Qed.

(** X14. From a new queue whose ceiling is an integer [C ≥ 0], after any
    sequence of calls and resumptions, the counter satisfies
    [running ≤ concurrency]; and as long as [clear()] is never called while
    a started task is pending, [running] is the number of tasks in flight,
    which then never exceeds [C]. *)
Theorem running_never_exceeds_concurrency C D tr :
  0 ≤ C →
  let w := exec tr (boot (constructor C D)) in
  concurrency (this w) = C ∧
  running (this w) ≤ concurrency (this w) ∧
  (clears_at_rest tr (boot (constructor C D)) = true →
   running (this w) = Z.of_nat (length (in_flight w)) ∧
   Z.of_nat (length (in_flight w)) ≤ C).
Proof.
  intros HC w.
  assert (Hc : concurrency (this w) = C) by apply exec_concurrency.
  assert (Hcap : capped w) by (apply exec_capped; [done|unfold capped; simpl; lia]).
  split; [done|]. split; [done|]. intros Hrest.
  assert (Hn : counted w) by (by apply exec_counted).
  unfold capped, counted in *. split; [done|]. lia.
Qed.

Lemma running_never_exceeds_concurrency_witness :
  clears_at_rest (invocation roomy_env "QR-1" six_cookies six_users
                  ++ [EvSettle 1; EvTimer; EvSettle 0])
                 (boot (constructor 3 300)) = true ∧
  let w := exec (invocation roomy_env "QR-1" six_cookies six_users
                 ++ [EvSettle 1; EvTimer; EvSettle 0])
                (boot (constructor 3 300)) in
  concurrency (this w) = 3 ∧
  running (this w) ≤ concurrency (this w) ∧
  (clears_at_rest (invocation roomy_env "QR-1" six_cookies six_users
                   ++ [EvSettle 1; EvTimer; EvSettle 0])
                  (boot (constructor 3 300)) = true →
   running (this w) = Z.of_nat (length (in_flight w)) ∧
   Z.of_nat (length (in_flight w)) ≤ 3).
Proof.
  split; [reflexivity|].
  apply (running_never_exceeds_concurrency 3 300
           (invocation roomy_env "QR-1" six_cookies six_users
            ++ [EvSettle 1; EvTimer; EvSettle 0])).
  lia.
Defined.

(** ** Retrying *)

Lemma retry_loop_spec api_post retries : ∀ left attempt,
  (attempt + left = S retries)%nat → (1 ≤ left)%nat → (1 ≤ attempt)%nat →
  let '(fx, r) := retry_loop api_post retries attempt left in
  (1 ≤ calls fx ≤ left)%nat ∧
  waited fx = 1000 * 2 ^ (Z.of_nat attempt - 1) * (2 ^ (Z.of_nat (calls fx) - 1) - 1) ∧
  (∀ k, (attempt ≤ k < attempt + calls fx - 1)%nat → ∃ e, api_post k = ApiThrows e) ∧
  match r with
  | Fulfilled data => api_post (attempt + calls fx - 1)%nat = ApiData data
  | Rejected e =>
      (attempt + calls fx - 1)%nat = retries ∧ api_post retries = ApiThrows e
  end.
Proof.
  induction left as [|left IH]; intros attempt Hsum Hleft Hattempt; [lia|].
  simpl. destruct (api_post attempt) as [e|data] eqn:Hpost.
  - destruct (Nat.eqb attempt retries) eqn:Hlast.
    + apply Nat.eqb_eq in Hlast. subst retries. simpl.
      replace (attempt + 1 - 1)%nat with attempt by lia.
      split; [lia|].
      split; [change (Z.of_nat 1 - 1) with 0; rewrite Z.pow_0_r; lia|].
      split; [intros k Hk; lia|done].
    + apply Nat.eqb_neq in Hlast.
      specialize (IH (S attempt) ltac:(lia) ltac:(lia) ltac:(lia)).
      destruct (retry_loop api_post retries (S attempt) left) as [fx r].
      destruct IH as (Hcalls & Hwait & Hthrows & Hend). simpl.
      replace (attempt + S (calls fx) - 1)%nat with (S attempt + calls fx - 1)%nat by lia.
      split; [lia|]. split; [|split; [|done]].
      * rewrite Hwait.
        replace (Z.of_nat (S attempt) - 1) with (Z.succ (Z.of_nat attempt - 1)) by lia.
        replace (Z.of_nat (S (calls fx)) - 1) with (Z.succ (Z.of_nat (calls fx) - 1)) by lia.
        rewrite !Z.pow_succ_r by lia. ring.
      * intros k Hk. destruct (decide (k = attempt)) as [->|Hne]; [eauto|].
        apply Hthrows. lia.
  - simpl. replace (attempt + 1 - 1)%nat with attempt by lia.
    split; [lia|].
    split; [change (Z.of_nat 1 - 1) with 0; rewrite Z.pow_0_r; lia|].
    split; [intros k Hk; lia|done].
Qed.

(** C4, as stated, fails for the queue path: a user whose request fails at
    the network is recorded as ['TIMEOUT'] after that single request. *)
Lemma queue_path_does_not_retry :
  ∃ report w',
    processQueueAttendance failing_env [{| name := "Asha"; stuId := "S1" |}] "QR-1"
      [VStr "sid=1"] (boot hook_queue) = Some (report, w') ∧
    code <$> results report = [VStr "TIMEOUT"] ∧
    successful report = VNum 0 ∧
    occurrences is_fetch (log w') = 1%nat.
Proof.
  eexists _, _. split; [vm_compute; reflexivity|]. vm_compute. by repeat split.
Qed.

(** C4, amended. The retry loop is the server's [markSingleAttendance]: it
    calls again whenever a call throws, and never after a call returned a
    response; before each further call it waits [1000 * 2^(attempt-1)] ms;
    it makes at most [retries] calls and then throws the last error.  With
    three attempts, two failures and a response yield the response after
    waiting [1000 + 2000] ms.  The task of the queue path itself sends one
    request and records ['TIMEOUT'] when it fails. *)
Theorem retry_policy api_post retries :
  (1 ≤ retries)%nat →
  (let '(fx, r) := markSingleAttendance api_post retries in
   (1 ≤ calls fx ≤ retries)%nat ∧
   waited fx = 1000 * (2 ^ (Z.of_nat (calls fx) - 1) - 1) ∧
   (∀ k, (1 ≤ k < calls fx)%nat → ∃ e, api_post k = ApiThrows e) ∧
   match r with
   | Fulfilled data => api_post (calls fx) = ApiData data
   | Rejected e => calls fx = retries ∧ api_post retries = ApiThrows e
   end) ∧
  (∀ data, api_post 1%nat = ApiData data →
     markSingleAttendance api_post 3 = ([Post 1], Fulfilled data)) ∧
  (∀ e1 e2 data,
     api_post 1%nat = ApiThrows e1 → api_post 2%nat = ApiThrows e2 →
     api_post 3%nat = ApiData data →
     markSingleAttendance api_post 3
       = ([Post 1; Sleep (1000 * 1); Post 2; Sleep (1000 * 2); Post 3], Fulfilled data)) ∧
  (∀ e1 e2 e3,
     api_post 1%nat = ApiThrows e1 → api_post 2%nat = ApiThrows e2 →
     api_post 3%nat = ApiThrows e3 →
     markSingleAttendance api_post 3
       = ([Post 1; Sleep (1000 * 1); Post 2; Sleep (1000 * 2); Post 3], Rejected e3)) ∧
  (∀ user index attendanceId userCookies,
     cookie_absent userCookies index = false →
     ∃ body r,
       attendanceTask user index attendanceId userCookies NetworkError
         = {| t_start := [Fetch "/api/mark-attendance" (Some index) body];
              t_finish := [SetResultAt index r];
              t_outcome := Fulfilled r |} ∧
       code r = VStr "TIMEOUT").
Proof.
  intros Hretries. split; [|split; [|split; [|split]]].
  - pose proof (retry_loop_spec api_post retries retries 1
                  ltac:(lia) ltac:(lia) ltac:(lia)) as H.
    unfold markSingleAttendance.
    destruct (retry_loop api_post retries 1 retries) as [fx r].
    destruct H as (Hcalls & Hwait & Hthrows & Hend).
    replace (1 + calls fx - 1)%nat with (calls fx) in * by lia.
    split; [done|]. split; [rewrite Hwait; simpl; lia|].
    split; [intros k Hk; apply Hthrows; lia|done].
  - intros data H1. unfold markSingleAttendance. simpl. by rewrite H1.
  - intros e1 e2 data H1 H2 H3. unfold markSingleAttendance. simpl.
    by rewrite H1, H2, H3.
  - intros e1 e2 e3 H1 H2 H3. unfold markSingleAttendance. simpl.
    by rewrite H1, H2, H3.
  - intros user index attendanceId userCookies Hpresent.
    unfold attendanceTask. unfold cookie_absent in Hpresent. rewrite Hpresent.
    by eexists _, _.
Qed.

Lemma retry_policy_witness :
  markSingleAttendance flaky_post 3
    = ([Post 1; Sleep 1000; Post 2; Sleep 2000; Post 3], Fulfilled success_body) ∧
  waited (fst (markSingleAttendance flaky_post 3)) = 1000 * 1 + 1000 * 2.
Proof.
  destruct (retry_policy flaky_post 3 ltac:(lia)) as (_ & _ & H & _).
  rewrite (H "ECONNRESET" "ECONNRESET" success_body); [|reflexivity..].
  split; reflexivity.
Defined.

(** ** Invariants of a queue run, in general *)

Lemma add_tasks_invariant (P : list Entry → World → Prop)
    env attendanceId userCookies users0 base :
  (∀ es index user x,
     run_inv base es x → length es = index → users0 !! index = Some user → P es x →
     P (es ++ [{| task := user_task env attendanceId userCookies index user;
                  promise := length (promises x) |}])
       (snd (add (user_task env attendanceId userCookies index user) x))) →
  ∀ users index x es,
    drop index users0 = users → length es = index →
    run_inv base es x → P es x →
    ∃ es' x',
      add_tasks env attendanceId userCookies index users x = (promise <$> es', x') ∧
      task <$> es' = imap (λ i u, user_task env attendanceId userCookies (index + i) u) users ∧
      run_inv base (es ++ es') x' ∧
      P (es ++ es') x' ∧
      concurrency (this x') = concurrency (this x) ∧
      backlog x' = (backlog x + 2 * length users)%nat.
Proof.
  intros Hadd. induction users as [|user users IH]; intros index x es Hdrop Hlen Hinv HP.
  - exists [], x. rewrite app_nil_r. simpl.
    split; [done|]. split; [done|]. split; [done|]. split; [done|]. split; [done|]. lia.
  - assert (Hu : users0 !! index = Some user).
    { pose proof (lookup_drop users0 index 0) as Hl.
      rewrite Hdrop, Nat.add_0_r in Hl. by rewrite <- Hl. }
    assert (Hd : drop (S index) users0 = users).
    { rewrite (drop_S _ _ _ Hu) in Hdrop. congruence. }
    change (add_tasks env attendanceId userCookies index (user :: users) x)
      with (let '(p, x1) := add (user_task env attendanceId userCookies index user) x in
            let '(ps, x2) := add_tasks env attendanceId userCookies (S index) users x1 in
            (p :: ps, x2)).
    destruct (add (user_task env attendanceId userCookies index user) x) as [p x1] eqn:Heq.
    assert (Hp : p = length (promises x)) by (unfold add in Heq; congruence).
    assert (Hx1 : x1 = snd (add (user_task env attendanceId userCookies index user) x))
      by (by rewrite Heq).
    set (e := {| task := user_task env attendanceId userCookies index user; promise := p |}).
    destruct (IH (S index) x1 (es ++ [e])) as (es' & x' & Hrun & Htasks & Hinv' & HP' & Hc & Hb).
    + done.
    + rewrite length_app. simpl. lia.
    + destruct Hinv as [H1 H2 H3]. unfold e. subst p x1. split;
        [by apply add_booked | by apply add_live
         | apply add_logged; [apply user_task_plain | done]].
    + unfold e. subst p x1. by apply Hadd.
    + rewrite Hrun. exists (e :: es'), x'.
      rewrite <- (assoc_L (++)) in Hinv', HP'.
      split; [done|]. split; [|split; [done|split; [done|split]]].
      * rewrite fmap_cons, Htasks. simpl. rewrite Nat.add_0_r. f_equal.
        apply imap_ext. intros i u' _. simpl. f_equal. lia.
      * rewrite Hc, Hx1. apply add_concurrency.
      * rewrite Hb, Hx1, add_backlog. simpl. lia.
Qed.

(** Whatever holds when the queue path starts adding its tasks and is kept
    by [add], by the continuation of a settled task and by a timer, holds
    when the awaited promises have all settled; the path then returns its
    closed-form report after logging its epilogue. *)
Lemma queue_run_invariant (P : list Entry → World → Prop)
    env users attendanceId userCookies w :
  in_flight w = [] →
  1 ≤ concurrency (this w) →
  (2 * length users + timers w ≤ fuel env)%nat →
  P [] (queue_start users w) →
  (∀ es index user x,
     run_inv (log (queue_start users w)) es x → length es = index →
     users !! index = Some user → P es x →
     P (es ++ [{| task := user_task env attendanceId userCookies index user;
                  promise := length (promises x) |}])
       (snd (add (user_task env attendanceId userCookies index user) x))) →
  (∀ es k x,
     task <$> es = imap (user_task env attendanceId userCookies) users →
     run_inv (log (queue_start users w)) es x → P es x → P es (settle k x)) →
  (∀ es x,
     task <$> es = imap (user_task env attendanceId userCookies) users →
     run_inv (log (queue_start users w)) es x → P es x → P es (fire x)) →
  ∃ w3 es,
    processQueueAttendance env users attendanceId userCookies w
      = Some (queue_report env attendanceId userCookies users,
              emit (queue_epilogue (queue_report env attendanceId userCookies users)) w3) ∧
    task <$> es = imap (user_task env attendanceId userCookies) users ∧
    run_inv (log (queue_start users w)) es w3 ∧
    P es w3 ∧
    waiting w3 = [] ∧
    concurrency (this w3) = concurrency (this w) ∧
    (backlog w3 ≤ 2 * length users + timers w)%nat.
Proof.
  intros Hrest Hcap Hfuel HP0 Hadd Hsettle Hfire. unfold processQueueAttendance.
  fold (queue_start users w). set (w1 := queue_start users w) in *.
  assert (Hinv : run_inv (log w1) [] w1).
  { split; [split|..|split]; unfold waiting, live, counted; simpl;
      rewrite ?Hrest; try done.
    - apply NoDup_nil_2.
    - intros e He. by apply elem_of_nil in He.
    - intros e He. by apply elem_of_nil in He.
    - intros e He. by apply elem_of_nil in He.
    - exists []. by rewrite app_nil_r. }
  destruct (add_tasks_invariant P env attendanceId userCookies users (log w1) Hadd
              users 0%nat w1 [] eq_refl eq_refl Hinv HP0)
    as (es & w2 & -> & Htasks & Hinv2 & HP2 & Hc & Hbl). simpl in Hinv2, HP2.
  assert (Hlen : length es = length users).
  { by rewrite <- (length_fmap task), Htasks, length_imap. }
  assert (Hbl1 : backlog w1 = timers w).
  { unfold backlog, waiting. simpl. rewrite Hrest. simpl. lia. }
  destruct (await_returns es (sched env) (fuel env) 0%nat w2
              (rv_booked _ _ _ Hinv2) (lg_counted _ _ _ (rv_logged _ _ _ Hinv2))
              (rv_live _ _ _ Hinv2)) as [w3 Hawait].
  { by rewrite Hc. }
  { rewrite Hbl, Hbl1. lia. }
  rewrite Hawait.
  assert (H3 : (run_inv (log w1) es w3 ∧ P es w3)
               ∧ concurrency (this w3) = concurrency (this w2)
               ∧ (backlog w3 ≤ backlog w2)%nat).
  { eapply (await_invariant
              (λ x, (run_inv (log w1) es x ∧ P es x)
                    ∧ concurrency (this x) = concurrency (this w2)
                    ∧ (backlog x ≤ backlog w2)%nat));
      [| |split; [by split|split; [done|lia]]|exact Hawait].
    - intros k x [[Hi Hp] [Hcx Hbx]]. split; [split|split].
      + by apply settle_run_inv.
      + by apply Hsettle.
      + by rewrite (step_concurrency (EvSettle k) x : concurrency (this (settle k x)) = _).
      + destruct (decide (k < length (in_flight x))%nat) as [Hk|Hk].
        * pose proof (settle_backlog k x Hk). lia.
        * unfold settle. rewrite lookup_ge_None_2 by lia. done.
    - intros x [[Hi Hp] [Hcx Hbx]]. split; [split|split].
      + by apply fire_run_inv.
      + by apply Hfire.
      + by rewrite (step_concurrency EvTimer x : concurrency (this (fire x)) = _).
      + destruct (decide (timers x = O)) as [Ht|Ht].
        * unfold fire. by rewrite Ht.
        * pose proof (fire_backlog x Ht). lia. }
  destruct H3 as [[Hinv3 HP3] [Hc3 Hb3]].
  pose proof (allSettled_drained _ _ _ (rv_booked _ _ _ Hinv3)
                (await_settled _ _ _ _ _ _ _ Hawait)) as Hw3.
  rewrite (collect_spec _ users users 0 []); [|done|by rewrite length_fmap].
  rewrite (list_fmap_compose task t_outcome), Htasks, zip_with_imap.
  exists w3, es. split; [reflexivity|].
  split; [done|]. split; [done|]. split; [done|]. split; [done|].
  split; [by rewrite Hc3, Hc|]. rewrite Hbl, Hbl1 in Hb3. lia.
Qed.

(** ** Requests are sent in input order *)




Lemma settle_queue k w : queue (this (settle k w)) = queue (this w).
Proof.
  unfold settle. destruct (in_flight w !! k); [|done]. by rewrite resume_eq.
Qed.








(** ** The retry loop, worst case *)

Lemma retry_shape_one attempt : retry_shape attempt 1 = [Post attempt].
Proof. unfold retry_shape. simpl. by replace (attempt + 1 - 1)%nat with attempt by lia. Qed.

Lemma retry_shape_succ attempt n :
  (1 ≤ n)%nat →
  retry_shape attempt (S n)
  = Post attempt :: Sleep (1000 * 2 ^ (Z.of_nat attempt - 1)) :: retry_shape (S attempt) n.
Proof.
  intros Hn. unfold retry_shape.
  replace (S n - 1)%nat with (S (n - 1)) by lia.
  replace (attempt + S n - 1)%nat with (S attempt + n - 1)%nat by lia.
  reflexivity.
Qed.

Lemma calls_retry_shape attempt n : (1 ≤ n)%nat → calls (retry_shape attempt n) = n.
Proof.
  revert attempt. induction n as [|n IH]; intros attempt Hn; [lia|].
  destruct n as [|n]; [by rewrite retry_shape_one|].
  rewrite retry_shape_succ by lia. cbn [calls foldr]. f_equal. apply IH. lia.
Qed.

Lemma retry_loop_shape api_post retries : ∀ left attempt,
  (attempt + left = S retries)%nat → (1 ≤ left)%nat →
  ∃ n, (1 ≤ n)%nat ∧ fst (retry_loop api_post retries attempt left) = retry_shape attempt n.
Proof.
  induction left as [|left IH]; intros attempt Hsum Hleft; [lia|].
  cbn [retry_loop]. destruct (api_post attempt) as [e|data];
    [|exists 1%nat; by rewrite retry_shape_one].
  destruct (Nat.eqb attempt retries) eqn:Hlast;
    [exists 1%nat; by rewrite retry_shape_one|].
  apply Nat.eqb_neq in Hlast.
  destruct (IH (S attempt) ltac:(lia) ltac:(lia)) as (n & Hn & Hshape).
  destruct (retry_loop api_post retries (S attempt) left) as [fx r].
  simpl in Hshape. exists (S n). split; [lia|]. cbn [fst].
  by rewrite retry_shape_succ, Hshape.
Qed.

(** X2. With at least one attempt allowed, [markSingleAttendance] makes
    between one and [retries] calls, waits after every call but the last
    (never after the last), and waits at most [1000 * (2^(retries-1) - 1)]
    ms in all: 3000 ms for the default of three attempts. *)
Theorem retry_worst_case api_post retries :
  (1 ≤ retries)%nat →
  let fx := fst (markSingleAttendance api_post retries) in
  (1 ≤ calls fx ≤ retries)%nat ∧
  fx = retry_shape 1 (calls fx) ∧
  0 ≤ waited fx ≤ 1000 * (2 ^ (Z.of_nat retries - 1) - 1) ∧
  (retries = 3%nat → waited fx ≤ 3000).
Proof.
  intros Hretries fx. unfold markSingleAttendance in fx.
  pose proof (retry_loop_spec api_post retries retries 1
                ltac:(lia) ltac:(lia) ltac:(lia)) as Hspec.
  destruct (retry_loop_shape api_post retries retries 1 ltac:(lia) Hretries)
    as (n & Hn & Hshape).
  fold fx in Hshape.
  destruct (retry_loop api_post retries 1 retries) as [fx' r]. simpl in fx. subst fx.
  destruct Hspec as (Hcalls & Hwait & _).
  assert (Hpow : 1 ≤ 2 ^ (Z.of_nat (calls fx') - 1) ≤ 2 ^ (Z.of_nat retries - 1)).
  { split; [apply Z.lt_pred_le, Z.pow_pos_nonneg; lia|].
    apply Z.pow_le_mono_r; lia. }
  split; [done|]. split; [by rewrite Hshape at 2; rewrite calls_retry_shape|].
  split; [rewrite Hwait; simpl (2 ^ (Z.of_nat 1 - 1)); lia|].
  intros ->. rewrite Hwait. simpl in Hpow. simpl (2 ^ (Z.of_nat 1 - 1)). lia.
Qed.

Lemma retry_worst_case_witness :
  let fx := fst (markSingleAttendance always_throws 3) in
  (1 ≤ calls fx ≤ 3)%nat ∧
  fx = retry_shape 1 (calls fx) ∧
  0 ≤ waited fx ≤ 1000 * (2 ^ (Z.of_nat 3 - 1) - 1) ∧
  (3%nat = 3%nat → waited fx ≤ 3000).
Proof. apply (retry_worst_case always_throws 3). lia. Defined.

(** ** A ceiling of zero *)

Lemma process_blocked w :
  concurrency (this w) ≤ running (this w) → process w = w.
Proof.
  intros H. unfold process.
  destruct (concurrency (this w) <=? running (this w)) eqn:Hg; [done|lia].
Qed.

Lemma add_tasks_blocked env attendanceId userCookies users : ∀ index x,
  concurrency (this x) ≤ running (this x) →
  ∃ x',
    add_tasks env attendanceId userCookies index users x
      = (seq (length (promises x)) (length users), x') ∧
    promises x' = promises x ++ replicate (length users) None ∧
    in_flight x' = in_flight x ∧
    concurrency (this x') = concurrency (this x) ∧
    running (this x') = running (this x).
Proof.
  induction users as [|user users IH]; intros index x Hx.
  - exists x. simpl. by rewrite app_nil_r.
  - cbn [add_tasks]. unfold add. rewrite process_blocked by done.
    match goal with |- context [add_tasks _ _ _ _ _ ?y] => set (x1 := y) end.
    destruct (IH (S index) x1 Hx) as (x' & Heq & Hp & Hi & Hc & Hr).
    rewrite Heq. exists x'. unfold x1 in *. simpl in *.
    rewrite length_app in *. simpl in *.
    replace (length (promises x) + 1)%nat with (S (length (promises x))) by lia.
    split; [done|]. split; [by rewrite Hp, <- (assoc_L (++))|done].
Qed.

Lemma turn_blocked c x :
  in_flight x = [] → concurrency (this x) ≤ running (this x) →
  promises (turn c x) = promises x ∧ in_flight (turn c x) = [] ∧
  this (turn c x) = this x.
Proof.
  intros Hin Hx.
  destruct (turn_cases c x) as [(_ & _ & ->)|[(k & Hk & _)|(Ht & ->)]]; [done| |].
  - rewrite Hin in Hk. simpl in Hk. lia.
  - unfold fire. destruct (timers x); [done|]. by rewrite process_blocked.
Qed.

Lemma await_blocked sched tasks fuel : ∀ tick x,
  in_flight x = [] → concurrency (this x) ≤ running (this x) →
  allSettled tasks x = None →
  await_allSettled fuel sched tick tasks x = None.
Proof.
  induction fuel as [|fuel IH]; intros tick x Hin Hx Hall; simpl; rewrite Hall; [done|].
  destruct (turn_blocked (sched tick) x Hin Hx) as (Hp & Hi & Ht).
  apply IH; [done|by rewrite Ht|]. unfold allSettled in *. by rewrite Hp.
Qed.

(** X3. On a queue whose ceiling is zero or less no task is ever started:
    with at least one user the queue path never returns, whatever the
    schedule and however long it waits. *)
Theorem zero_ceiling_never_returns env users attendanceId userCookies w :
  users ≠ [] →
  in_flight w = [] →
  concurrency (this w) ≤ 0 →
  processQueueAttendance env users attendanceId userCookies w = None.
Proof.
  intros Hne Hrest Hcap. unfold processQueueAttendance.
  fold (queue_start users w). set (w1 := queue_start users w).
  destruct (add_tasks_blocked env attendanceId userCookies users 0 w1)
    as (x' & -> & Hp & Hi & Hc & Hr); [done|].
  rewrite await_blocked; [done|by rewrite Hi|by rewrite Hc, Hr|].
  destruct users as [|user users]; [done|].
  apply mapM_None_2. simpl. left. rewrite Hp. simpl.
  rewrite lookup_app_r by lia. by rewrite Nat.sub_diag.
Qed.

Lemma zero_ceiling_never_returns_witness :
  processQueueAttendance sample_env sample_users "QR-1" sample_cookies
    (boot (constructor 0 300)) = None.
Proof.
  apply (zero_ceiling_never_returns sample_env sample_users "QR-1" sample_cookies
           (boot (constructor 0 300))); [discriminate | reflexivity | simpl; lia].
Defined.

(** ** What [clear()] drops *)

Lemma step_keeps_pending p ev x :
  addressed x →
  promises x !! p = Some None →
  p ∉ promise <$> waiting x →
  addressed (step ev x) ∧
  promises (step ev x) !! p = Some None ∧
  p ∉ promise <$> waiting (step ev x).
Proof.
  intros Hadr Hp Hfree.
  assert (Hproc : ∀ y, addressed y → promises y !! p = Some None →
            p ∉ promise <$> waiting y →
            addressed (process y) ∧ promises (process y) !! p = Some None ∧
            p ∉ promise <$> waiting (process y)).
  { intros y Ha Hy Hf. pose proof (process_waiting y) as Hperm.
    rewrite process_promises. split; [|split; [done|by rewrite Hperm]].
    intros e He. rewrite process_promises. apply Ha. by rewrite <- Hperm. }
  destruct ev as [tk| | |k|]; simpl.
  - unfold add. simpl. apply Hproc.
    + intros e. unfold waiting. simpl. rewrite length_app. simpl.
      rewrite <- (assoc_L (++)), (Permutation_app_comm [_]), (assoc_L (++)).
      intros [He|He]%elem_of_app.
      * specialize (Hadr e He). lia.
      * apply list_elem_of_singleton in He. subst e. simpl. lia.
    + simpl. by apply lookup_app_l_Some.
    + unfold waiting in *. simpl.
      rewrite <- (assoc_L (++)), (Permutation_app_comm [_]), (assoc_L (++)), fmap_app.
      intros [Hin|Hin]%elem_of_app; [done|].
      apply list_elem_of_singleton in Hin. simpl in Hin.
      apply lookup_lt_Some in Hp. lia.
  - done.
  - unfold waiting in *. simpl. split; [|split; [done|]].
    + intros e He. apply Hadr. apply elem_of_app. by right.
    + intros Hin. apply Hfree. rewrite fmap_app. apply elem_of_app. by right.
  - destruct (in_flight x !! k) as [e|] eqn:Hk; [|unfold settle; by rewrite Hk].
    pose proof (settle_waiting _ _ _ Hk) as Hperm.
    assert (Hne : promise e ≠ p).
    { intros <-. apply Hfree. rewrite Hperm. simpl. left. }
    assert (Hps : promises (settle k x) !! p = Some None
                  ∧ length (promises (settle k x)) = length (promises x)).
    { unfold settle. rewrite Hk, resume_promises. simpl. unfold settle_promise.
      destruct (promises x !! promise e) as [[o|]|]; try done.
      by rewrite list_lookup_insert_ne, length_insert. }
    destruct Hps as [Hp' Hlen]. split; [|split; [done|]].
    + intros e' He'. rewrite Hlen. apply Hadr. rewrite Hperm. by right.
    + intros Hin. apply Hfree. rewrite Hperm, fmap_cons. by right.
  - unfold fire. destruct (timers x); [done|]. apply Hproc; done.
Qed.

(** X4. A promise that is pending and belongs to no started task when
    [clear()] is called (the promise of a task that was still queued) stays
    pending for ever, whatever is added, settles or fires afterwards: a
    task dropped by [clear()] is never run and never reported. *)
Theorem cleared_task_never_settles w p tr :
  addressed w →
  promises w !! p = Some None →
  p ∉ promise <$> in_flight w →
  promises (exec tr (clear w)) !! p = Some None.
Proof.
  intros Hadr Hp Hfree.
  assert (H0 : addressed (clear w) ∧ promises (clear w) !! p = Some None
               ∧ p ∉ promise <$> waiting (clear w)).
  { unfold addressed, waiting in *. simpl. split; [|done].
    intros e He. apply Hadr. apply elem_of_app. by right. }
  generalize dependent (clear w). clear Hadr Hp Hfree.
  induction tr as [|ev tr IH]; intros x (Ha & Hx & Hf); simpl; [done|].
  apply IH. by apply step_keeps_pending.
Qed.

Lemma cleared_task_never_settles_witness :
  promises (exec [EvSettle 0; EvTimer; EvAdd (user_task roomy_env "QR-1" six_cookies 0
                                               {| name := "Asha"; stuId := "S1" |})]
              (clear (exec (invocation roomy_env "QR-1" six_cookies four_users)
                           (boot hook_queue)))) !! 3%nat = Some None.
Proof.
  apply (cleared_task_never_settles
           (exec (invocation roomy_env "QR-1" six_cookies four_users) (boot hook_queue))
           3
           [EvSettle 0; EvTimer; EvAdd (user_task roomy_env "QR-1" six_cookies 0
                                          {| name := "Asha"; stuId := "S1" |})]).
  - intros e He. vm_compute in He. vm_compute.
    repeat (apply elem_of_cons in He as [->|He]; [simpl; lia|]).
    by apply elem_of_nil in He.
  - reflexivity.
  - vm_compute. intros Hin.
    repeat (apply elem_of_cons in Hin as [Hin|Hin]; [discriminate Hin|]).
    by apply elem_of_nil in Hin.
Defined.

(** ** The batch path when the server answers *)

Lemma format_result_defined r :
  r ≠ VNull → r ≠ VUndefined → ∃ f, format_result r = Some f ∧ formatted_as r f.
Proof.
  intros Hn Hu. unfold format_result, formatted_as, opt_member.
  destruct r; try done; simpl; eexists; (split; [reflexivity|]); simpl; done.
Qed.

Lemma format_results_defined rs :
  Forall (λ r, r ≠ VNull ∧ r ≠ VUndefined) rs →
  ∃ formatted, mapM format_result rs = Some formatted ∧ Forall2 formatted_as rs formatted.
Proof.
  induction 1 as [|r rs [Hn Hu] _ (formatted & Hm & Hall)].
  - by exists [].
  - destruct (format_result_defined r Hn Hu) as (f & Hf & Hfa).
    exists (f :: formatted). split; [|by constructor].
    apply mapM_Some. constructor; [done|]. by apply mapM_Some.
Qed.

(** X5. When the batch endpoint answers with an ok response whose body
    holds a list [results] without [null] entries, the batch path returns a
    report whose results follow the server's list entry by entry (code
    ['SUCCESS'] exactly for status ['success'], ['ERROR'] otherwise) and
    whose counts are the server's [total], [successful] and [failed] as
    sent; it sends that one request, does not fall back and leaves the
    queue untouched. *)
Theorem batch_report_follows_server env users attendanceId userCookies w statusText data rs :
  batch_reply env = BatchResponse true statusText (Some data) →
  member data "results" = Some (VArr rs) →
  Forall (λ r, r ≠ VNull ∧ r ≠ VUndefined) rs →
  ∃ formatted w' delta,
    processBatchAttendance env users attendanceId userCookies w
      = Some ({| success := true;
                 total := opt_member data "total";
                 successful := opt_member data "successful";
                 failed := opt_member data "failed";
                 error := VUndefined;
                 results := formatted |}, w') ∧
    Forall2 formatted_as rs formatted ∧
    length formatted = length rs ∧
    this w' = this w ∧ in_flight w' = in_flight w ∧
    timers w' = timers w ∧ promises w' = promises w ∧
    log w' = log w ++ delta ∧
    occurrences is_fetch delta = 1%nat ∧
    occurrences is_batch_fetch delta = 1%nat ∧
    occurrences (is_log fallback_message) delta = 0%nat.
Proof.
  intros Hreply Hresults Hrs.
  destruct (format_results_defined rs Hrs) as (formatted & Hm & Hall).
  unfold processBatchAttendance, batch_try. rewrite Hreply, Hresults, Hm.
  eexists formatted, _, _. split; [reflexivity|]. simpl.
  split; [done|]. split; [symmetry; by eapply Forall2_length|].
  repeat (split; [done|]).
  split; [rewrite <- !(assoc_L (++)); reflexivity|]. done.
Qed.

Lemma batch_report_follows_server_witness :
  ∃ formatted w' delta,
    processBatchAttendance batch_env sample_users "QR-1" sample_cookies (boot hook_queue)
      = Some ({| success := true;
                 total := opt_member batch_body "total";
                 successful := opt_member batch_body "successful";
                 failed := opt_member batch_body "failed";
                 error := VUndefined;
                 results := formatted |}, w') ∧
    Forall2 formatted_as
      [VObj [("name", VStr "Asha"); ("status", VStr "success")];
       VObj [("name", VStr "Ben"); ("status", VStr "error"); ("error", VStr "EVENT_EXPIRED")]]
      formatted ∧
    length formatted = 2%nat ∧
    this w' = this (boot hook_queue) ∧ in_flight w' = in_flight (boot hook_queue) ∧
    timers w' = timers (boot hook_queue) ∧ promises w' = promises (boot hook_queue) ∧
    log w' = log (boot hook_queue) ++ delta ∧
    occurrences is_fetch delta = 1%nat ∧
    occurrences is_batch_fetch delta = 1%nat ∧
    occurrences (is_log fallback_message) delta = 0%nat.
Proof.
  apply (batch_report_follows_server batch_env sample_users "QR-1" sample_cookies
           (boot hook_queue) "OK" batch_body
           [VObj [("name", VStr "Asha"); ("status", VStr "success")];
            VObj [("name", VStr "Ben"); ("status", VStr "error");
                  ("error", VStr "EVENT_EXPIRED")]]);
    [reflexivity | reflexivity | repeat constructor; discriminate].
Defined.

(** ** Invocations one after the other *)

(** X6. The hook's queue can be used again: when an invocation of the
    queue path has returned, a second one on the world it left (with the
    timers it may have left pending) returns as well, with the closed-form
    report of its own users and replies. *)
Theorem queue_path_runs_in_sequence
    env1 users1 attendanceId1 userCookies1 env2 users2 attendanceId2 userCookies2 w :
  in_flight w = [] →
  1 ≤ concurrency (this w) →
  (2 * length users1 + timers w ≤ fuel env1)%nat →
  (2 * length users2 + (2 * length users1 + timers w) ≤ fuel env2)%nat →
  ∃ w1 w2,
    processQueueAttendance env1 users1 attendanceId1 userCookies1 w
      = Some (queue_report env1 attendanceId1 userCookies1 users1, w1) ∧
    processQueueAttendance env2 users2 attendanceId2 userCookies2 w1
      = Some (queue_report env2 attendanceId2 userCookies2 users2, w2) ∧
    in_flight w2 = [] ∧
    concurrency (this w2) = concurrency (this w).
Proof.
  intros Hrest Hcap Hfuel1 Hfuel2.
  destruct (queue_run_invariant (λ _ _, True) env1 users1 attendanceId1 userCookies1 w
              Hrest Hcap Hfuel1) as (w3 & es & Hrun1 & _ & _ & _ & Hw3 & Hc3 & Hb3); try done.
  set (w1 := emit (queue_epilogue (queue_report env1 attendanceId1 userCookies1 users1)) w3)
    in *.
  assert (Hrest1 : in_flight w1 = []).
  { unfold waiting in Hw3. by apply app_eq_nil in Hw3 as [_ ?]. }
  assert (Ht1 : (timers w1 ≤ 2 * length users1 + timers w)%nat).
  { unfold backlog in Hb3. simpl. lia. }
  destruct (processQueueAttendance_returns env2 users2 attendanceId2 userCookies2 w1)
    as (w2 & _ & _ & Hrun2 & _ & _ & _ & _ & _ & Hrest2 & Hc2).
  - done.
  - simpl. by rewrite Hc3.
  - lia.
  - exists w1, w2. split; [done|]. split; [done|]. split; [done|].
    rewrite Hc2. simpl. done.
Qed.

Lemma queue_path_runs_in_sequence_witness :
  ∃ w1 w2,
    processQueueAttendance roomy_env six_users "QR-1" six_cookies (boot hook_queue)
      = Some (queue_report roomy_env "QR-1" six_cookies six_users, w1) ∧
    processQueueAttendance batch_env sample_users "QR-2" sample_cookies w1
      = Some (queue_report batch_env "QR-2" sample_cookies sample_users, w2) ∧
    in_flight w2 = [] ∧
    concurrency (this w2) = concurrency (this (boot hook_queue)).
Proof.
  apply (queue_path_runs_in_sequence roomy_env six_users "QR-1" six_cookies
           batch_env sample_users "QR-2" sample_cookies (boot hook_queue));
    [reflexivity | simpl; lia | simpl; lia | simpl; lia].
Defined.

(** ** The totals of the snapshots *)

Lemma process_quiet_log w :
  (∀ e, e ∈ queue (this w) → snapshots (t_start (task e)) = []) →
  ∃ fx, log (process w) = log w ++ fx ∧ snapshots fx = [].
Proof.
  intros Hq. destruct (process_cases w) as [[-> _]|(e & rest & Hq' & _ & ->)]; simpl.
  - exists []. by rewrite app_nil_r.
  - exists (t_start (task e)). split; [done|]. apply Hq. rewrite Hq'. left.
Qed.

Lemma countdown_snoc n m : countdown n (S m) = countdown n m ++ [(VNum 1, VNum (Z.of_nat (n - m)))].
Proof. unfold countdown. by rewrite seq_S, fmap_app. Qed.

Lemma add_counting_down base n es tk w :
  plain tk → (length es < n)%nat →
  run_inv base es w → counting_down base n es w →
  counting_down base n (es ++ [{| task := tk; promise := length (promises w) |}])
                (snd (add tk w)).
Proof.
  intros Htk Hlt [_ _ Hlg] (delta & Hlog & Hnone & _).
  specialize (Hnone Hlt).
  destruct (lg_log _ _ _ Hlg) as (delta' & Hlog' & _ & Hcount & _).
  assert (delta' = delta) by (rewrite Hlog in Hlog'; by apply app_inv_head in Hlog').
  subst delta'. rewrite Hnone in Hcount. simpl in Hcount.
  pose proof (add_waiting tk w) as Hperm. apply Permutation_length in Hperm.
  rewrite length_app in Hperm. simpl in Hperm.
  unfold add in *. simpl in *.
  match goal with |- context [process ?y] => set (w1 := y) in * end.
  destruct (process_quiet_log w1) as (fx & Hfx & Hquiet).
  { unfold w1. simpl. intros e [He|He]%elem_of_app.
    - apply (lg_plain _ _ _ Hlg). apply (lg_known _ _ _ Hlg).
      unfold waiting. apply elem_of_app. by left.
    - apply list_elem_of_singleton in He. subst e. apply Htk. }
  exists (delta ++ fx). split; [rewrite Hfx; unfold w1; simpl; by rewrite Hlog, (assoc_L (++))|].
  rewrite snapshots_app, Hnone, Hquiet. split; [done|].
  rewrite length_app. simpl. intros Hn.
  replace (n - length (waiting (process w1)))%nat with 0%nat by lia. done.
Qed.

Lemma fire_counting_down base n es w :
  run_inv base es w → counting_down base n es w → counting_down base n es (fire w).
Proof.
  intros [_ _ Hlg] (delta & Hlog & Hnone & Hall).
  unfold fire. destruct (timers w) as [|t] eqn:Ht; [by exists delta|].
  match goal with |- context [process ?y] => set (w1 := y) end.
  destruct (process_quiet_log w1) as (fx & Hfx & Hquiet).
  { unfold w1. simpl. intros e He. apply (lg_plain _ _ _ Hlg), (lg_known _ _ _ Hlg).
    unfold waiting. apply elem_of_app. by left. }
  exists (delta ++ fx). split; [rewrite Hfx; unfold w1; simpl; by rewrite Hlog, (assoc_L (++))|].
  rewrite snapshots_app, Hquiet, app_nil_r.
  rewrite (Permutation_length (process_waiting w1)).
  by replace (waiting w1) with (waiting w) by done.
Qed.

Lemma settle_counting_down base n es k w :
  length es = n →
  run_inv base es w → counting_down base n es w → counting_down base n es (settle k w).
Proof.
  intros Hn [_ _ Hlg] (delta & Hlog & _ & Hall). specialize (Hall Hn).
  destruct (in_flight w !! k) as [e|] eqn:Hk;
    [|unfold settle; rewrite Hk; exists delta; split; [done|split; [lia|done]]].
  pose proof (settle_waiting _ _ _ Hk) as Hp. apply Permutation_length in Hp. simpl in Hp.
  destruct (settle_fields _ _ _ Hk) as (_ & _ & Hlg').
  destruct Hlg as [H1 H2 H3 H4 H5 (delta' & Hlog' & _ & Hcount & _)].
  assert (delta' = delta) by (rewrite Hlog in Hlog'; by apply app_inv_head in Hlog').
  subst delta'.
  assert (He : e ∈ es).
  { apply H5. unfold waiting. apply elem_of_app. right. by eapply list_elem_of_lookup_2. }
  destruct (H4 e He) as (_ & Hf & r & Hr).
  assert (Hrun : Z.of_nat (length (queue (this w))) + running (this w)
                 = Z.of_nat (length (waiting w))).
  { unfold counted in H3. unfold waiting. rewrite H3, length_app. lia. }
  assert (Hlg2 : log (settle k w)
                 = log w ++ t_finish (task e)
                   ++ [SetProgress (VNum 1) (VNum (Z.of_nat (length (waiting w))))]).
  { rewrite Hlg', Hr, H2, H1. unfold progress_callback. simpl. repeat f_equal. lia. }
  eexists. split; [rewrite Hlg2, Hlog, <- (assoc_L (++)); reflexivity|].
  split; [lia|]. intros _.
  rewrite !snapshots_app, Hf, Hall. simpl.
  replace (n - length (waiting (settle k w)))%nat with (S (n - length (waiting w))) by lia.
  rewrite countdown_snoc. do 4 f_equal. lia.
Qed.

(** X7. On a queue with no task in flight and a ceiling of at least one,
    which no other call uses meanwhile,
    the snapshots of a queue run over [n] users are exactly [(0, n)]
    followed by [(1, n)], [(1, n-1)], ..., [(1, 1)]: [completed] stays at 1
    while [total] counts the tasks not yet settled.  The progress state
    ends at 1 of 1 (0 of 0 without users); with two users or more that is
    not [n] of [n]. *)
Theorem progress_total_counts_down env users attendanceId userCookies w :
  in_flight w = [] →
  1 ≤ concurrency (this w) →
  (2 * length users + timers w ≤ fuel env)%nat →
  ∃ report w' delta,
    processQueueAttendance env users attendanceId userCookies w = Some (report, w') ∧
    log w' = log w ++ delta ∧
    snapshots delta
      = (VNum 0, VNum (Z.of_nat (length users)))
        :: countdown (length users) (length users) ∧
    last (snapshots delta)
      = Some (match users with
              | [] => (VNum 0, VNum 0)
              | _ :: _ => (VNum 1, VNum 1)
              end) ∧
    ((2 ≤ length users)%nat →
     last (snapshots delta)
     ≠ Some (VNum (Z.of_nat (length users)), VNum (Z.of_nat (length users)))).
Proof.
  intros Hrest Hcap Hfuel.
  destruct (queue_run_invariant
              (counting_down (log (queue_start users w)) (length users))
              env users attendanceId userCookies w Hrest Hcap Hfuel)
    as (w3 & es & Hrun & Htasks & Hinv & (delta & Hlog & _ & Hall) & Hw3 & _).
  - exists []. rewrite app_nil_r. split; [done|]. split; [done|].
    simpl. intros <-. done.
  - intros es index user x Hinv Hlen Hu. apply add_counting_down; [|by subst; eapply lookup_lt_Some|done].
    apply user_task_plain.
  - intros es k x Htasks. apply settle_counting_down.
    by rewrite <- (length_fmap task), Htasks, length_imap.
  - intros es x _. apply fire_counting_down.
  - assert (Hlen : length es = length users)
      by (by rewrite <- (length_fmap task), Htasks, length_imap).
    specialize (Hall Hlen). rewrite Hw3 in Hall. simpl in Hall.
    rewrite Nat.sub_0_r in Hall.
    assert (Hsnap : snapshots (queue_prelude users ++ delta
                               ++ queue_epilogue (queue_report env attendanceId userCookies users))
                    = (VNum 0, VNum (Z.of_nat (length users)))
                      :: countdown (length users) (length users)).
    { rewrite !snapshots_app, Hall. simpl. by rewrite app_nil_r. }
    eexists _, _, (queue_prelude users ++ delta
                   ++ queue_epilogue (queue_report env attendanceId userCookies users)).
    split; [exact Hrun|].
    split; [simpl; rewrite Hlog; unfold queue_start; simpl;
            rewrite <- !(assoc_L (++)); reflexivity|].
    split; [exact Hsnap|]. rewrite Hsnap.
    destruct users as [|user users]; [split; [done|simpl; lia]|].
    cbn [length]. rewrite countdown_snoc.
    rewrite app_comm_cons, last_snoc.
    replace (S (length users) - length users)%nat with 1%nat by lia.
    split; [done|]. intros Hn [= Heq]. lia.
Qed.

Lemma progress_total_counts_down_witness :
  ∃ report w' delta,
    processQueueAttendance roomy_env six_users "QR-1" six_cookies (boot hook_queue)
      = Some (report, w') ∧
    log w' = log (boot hook_queue) ++ delta ∧
    snapshots delta
      = (VNum 0, VNum (Z.of_nat (length six_users)))
        :: countdown (length six_users) (length six_users) ∧
    last (snapshots delta) = Some (VNum 1, VNum 1) ∧
    ((2 ≤ length six_users)%nat →
     last (snapshots delta)
     ≠ Some (VNum (Z.of_nat (length six_users)), VNum (Z.of_nat (length six_users)))).
Proof.
  apply (progress_total_counts_down roomy_env six_users "QR-1" six_cookies (boot hook_queue));
    [reflexivity | simpl; lia | simpl; lia].
Defined.

(** ** The rows the hook shows *)

Section Rows.

Variable env : Env.
Variable attendanceId : string.
Variable userCookies : list jsval.
Variable users : list User.

Lemma results_state_app l1 l2 :
  results_state (l1 ++ l2) = foldl apply_update (results_state l1) l2.
Proof. apply foldl_app. Qed.

Lemma set_row_rows index r rs :
  (index < length rs)%nat → set_row index r (Row <$> rs) = Row <$> <[index := r]> rs.
Proof.
  intros Hlt. unfold set_row. rewrite <- list_fmap_compose.
  replace ((λ s, match s with Hole => Blank | _ => s end) ∘ Row) with Row by done.
  rewrite length_fmap. destruct (index <? length rs)%nat eqn:Hb.
  - by rewrite list_fmap_insert.
  - apply Nat.ltb_ge in Hb. lia.
Qed.

Lemma user_task_index i u j u' :
  user_task env attendanceId userCookies i u = user_task env attendanceId userCookies j u' →
  i = j.
Proof.
  unfold user_task, attendanceTask.
  destruct (negb (truthy (default VUndefined (userCookies !! i))));
    destruct (negb (truthy (default VUndefined (userCookies !! j))));
    try destruct (replies env i); try destruct (replies env j); intros H;
    injection H; intros; congruence.
Qed.

Lemma user_task_start_rows i u rs :
  (i < length rs)%nat →
  foldl apply_update (Row <$> rs) (t_start (user_task env attendanceId userCookies i u))
  = Row <$> (if cookie_absent userCookies i
             then <[i := user_result env attendanceId userCookies i u]> rs else rs).
Proof.
  intros Hlt. unfold user_result, user_task, attendanceTask, cookie_absent.
  destruct (negb _); simpl; [by rewrite set_row_rows|].
  by destruct (replies env i).
Qed.

Lemma user_task_finish_rows i u rs :
  (i < length rs)%nat →
  foldl apply_update (Row <$> rs) (t_finish (user_task env attendanceId userCookies i u))
  = Row <$> (if cookie_absent userCookies i
             then rs else <[i := user_result env attendanceId userCookies i u]> rs).
Proof.
  intros Hlt. unfold user_result, user_task, attendanceTask, cookie_absent.
  destruct (negb _); simpl; [done|].
  destruct (replies env i); simpl; by rewrite set_row_rows.
Qed.

Lemma user_task_finish_nil i u :
  t_finish (user_task env attendanceId userCookies i u) = [] →
  cookie_absent userCookies i = true.
Proof.
  unfold user_task, attendanceTask, cookie_absent.
  destruct (negb _); [done|]. by destruct (replies env i).
Qed.

(** Writing a user's result into its row keeps every row that already
    showed its user's result. *)
Lemma insert_result_kept rs i u j u' (b : bool) :
  users !! i = Some u → users !! j = Some u' → (i < length rs)%nat →
  rs !! j = Some (user_result env attendanceId userCookies j u') →
  (if b then <[i := user_result env attendanceId userCookies i u]> rs else rs) !! j
  = Some (user_result env attendanceId userCookies j u').
Proof.
  intros Hi Hj Hlt Hrow. destruct b; [|done].
  destruct (decide (i = j)) as [->|Hne].
  - rewrite list_lookup_insert_eq by done. congruence.
  - by rewrite list_lookup_insert_ne.
Qed.

Lemma insert_result_two_valued rs i u (b : bool) :
  users !! i = Some u → (i < length rs)%nat →
  (∀ j u', users !! j = Some u' →
     rs !! j = Some (pending_result u') ∨
     rs !! j = Some (user_result env attendanceId userCookies j u')) →
  ∀ j u', users !! j = Some u' →
    (if b then <[i := user_result env attendanceId userCookies i u]> rs else rs) !! j
      = Some (pending_result u') ∨
    (if b then <[i := user_result env attendanceId userCookies i u]> rs else rs) !! j
      = Some (user_result env attendanceId userCookies j u').
Proof.
  intros Hi Hlt Hrs j u' Hj. destruct b; [|by apply Hrs].
  destruct (decide (i = j)) as [->|Hne].
  - right. rewrite list_lookup_insert_eq by done. congruence.
  - rewrite list_lookup_insert_ne by done. by apply Hrs.
Qed.

Lemma process_shown es w :
  (∀ e, e ∈ queue (this w) → e ∈ es) →
  shown env attendanceId userCookies users es w →
  shown env attendanceId userCookies users es (process w).
Proof.
  intros Hknown (rs & Hst & Hlen & Hlink & Htwo & Hdone).
  pose proof (process_waiting w) as Hperm.
  destruct (process_cases w) as [[Heq _]|(e & rest & Hq & _ & Heq)]; rewrite Heq in *.
  { by exists rs. }
  assert (He : e ∈ es) by (apply Hknown; rewrite Hq; left).
  apply list_elem_of_lookup in He as [i Hi].
  destruct (Hlink i e Hi) as (u & Hu & Htask).
  assert (Hlt : (i < length rs)%nat) by (rewrite Hlen; by eapply lookup_lt_Some).
  eexists. split; [|split; [|split; [done|split]]].
  - simpl. rewrite results_state_app, Hst, Htask. by apply user_task_start_rows.
  - destruct (cookie_absent userCookies i); [by rewrite length_insert|done].
  - by apply insert_result_two_valued.
  - intros j e' u' Hj Hu' Hcond. simpl in Hcond.
    destruct (decide (i = j)) as [<-|Hne].
    + assert (e' = e) by congruence. subst e'.
      assert (u' = u) by congruence. subst u'.
      destruct Hcond as [Hout|[_ Hfin]].
      * exfalso. apply Hout. rewrite Hperm. unfold waiting. rewrite Hq. left.
      * rewrite Htask in Hfin. rewrite (user_task_finish_nil _ _ Hfin).
        by apply list_lookup_insert_eq.
    + apply (insert_result_kept rs i u j u'); try done.
      apply (Hdone j e' u' Hj Hu').
      destruct Hcond as [Hout|[Hin Hfin]]; [left; by rewrite <- Hperm|].
      apply elem_of_app in Hin as [Hin|Hin]; [by right|].
      apply list_elem_of_singleton in Hin. subst e'.
      destruct (Hlink j e Hj) as (u2 & _ & Htask2). rewrite Htask in Htask2.
      by apply user_task_index in Htask2.
Qed.

Lemma settle_in_flight e k w : e ∈ in_flight (settle k w) → e ∈ in_flight w.
Proof.
  unfold settle. destruct (in_flight w !! k) eqn:Hk; [|done].
  rewrite resume_eq. simpl. apply list_elem_of_delete_inv.
Qed.

Lemma settle_shown base es k w :
  run_inv base es w →
  shown env attendanceId userCookies users es w →
  shown env attendanceId userCookies users es (settle k w).
Proof.
  intros [_ _ Hlg] (rs & Hst & Hlen & Hlink & Htwo & Hdone).
  destruct (in_flight w !! k) as [e|] eqn:Hk;
    [|unfold settle; rewrite Hk; by exists rs].
  pose proof (settle_waiting _ _ _ Hk) as Hperm.
  destruct (settle_fields _ _ _ Hk) as (_ & _ & Hlog).
  assert (Hin : e ∈ in_flight w) by (by eapply list_elem_of_lookup_2).
  assert (He : e ∈ es).
  { apply (lg_known _ _ _ Hlg). unfold waiting. apply elem_of_app. by right. }
  apply list_elem_of_lookup in He as [i Hi].
  destruct (Hlink i e Hi) as (u & Hu & Htask).
  assert (Hlt : (i < length rs)%nat) by (rewrite Hlen; by eapply lookup_lt_Some).
  rewrite (lg_callback _ _ _ Hlg) in Hlog.
  eexists. split; [|split; [|split; [done|split]]].
  - rewrite Hlog, (assoc_L (++)), results_state_app, results_state_app, Hst, Htask.
    rewrite user_task_finish_rows by done.
    instantiate (1 := if negb (cookie_absent userCookies i)
                      then <[i := user_result env attendanceId userCookies i u]> rs else rs).
    destruct (cookie_absent userCookies i);
      destruct (t_outcome (user_task env attendanceId userCookies i u)); done.
  - destruct (negb _); [by rewrite length_insert|done].
  - by apply insert_result_two_valued.
  - intros j e' u' Hj Hu' Hcond.
    destruct (decide (i = j)) as [<-|Hne].
    + assert (e' = e) by congruence. subst e'.
      assert (u' = u) by congruence. subst u'.
      destruct (cookie_absent userCookies i) eqn:Habs; simpl.
      * apply (Hdone i e u Hi Hu). right. split; [done|].
        rewrite Htask. unfold user_task, attendanceTask.
        unfold cookie_absent in Habs. by rewrite Habs.
      * by apply list_lookup_insert_eq.
    + apply (insert_result_kept rs i u j u'); try done.
      apply (Hdone j e' u' Hj Hu').
      destruct Hcond as [Hout|[Hin' Hfin]].
      * left. intros Hw. rewrite Hperm in Hw. apply elem_of_cons in Hw as [->|Hw]; [|done].
        destruct (Hlink j e Hj) as (u2 & _ & Htask2). rewrite Htask in Htask2.
        by apply user_task_index in Htask2.
      * right. split; [|done]. by eapply settle_in_flight.
Qed.

Lemma fire_shown base es w :
  run_inv base es w →
  shown env attendanceId userCookies users es w →
  shown env attendanceId userCookies users es (fire w).
Proof.
  intros [_ _ Hlg] H. unfold fire. destruct (timers w); [done|].
  apply process_shown.
  - simpl. intros e He. apply (lg_known _ _ _ Hlg). unfold waiting.
    apply elem_of_app. by left.
  - destruct H as (rs & H). exists rs. apply H.
Qed.

Lemma add_shown base es index user w :
  run_inv base es w → length es = index → users !! index = Some user →
  shown env attendanceId userCookies users es w →
  shown env attendanceId userCookies users
        (es ++ [{| task := user_task env attendanceId userCookies index user;
                   promise := length (promises w) |}])
        (snd (add (user_task env attendanceId userCookies index user) w)).
Proof.
  intros [Hbk _ Hlg] Hlen Hu (rs & Hst & Hlenrs & Hlink & Htwo & Hdone).
  set (e := {| task := user_task env attendanceId userCookies index user;
               promise := length (promises w) |}).
  unfold add. simpl. apply process_shown.
  - simpl. intros e' [He'|He']%elem_of_app; apply elem_of_app.
    + left. apply (lg_known _ _ _ Hlg). unfold waiting. apply elem_of_app. by left.
    + by right.
  - exists rs. simpl. split; [done|]. split; [done|]. split; [|split; [done|]].
    + intros i e' Hi. apply lookup_app_Some in Hi as [Hi|[Hge Hi]]; [by apply Hlink|].
      apply list_lookup_singleton_Some in Hi as [Hi <-].
      assert (i = index) by lia. subst i. by exists user.
    + intros i e' u Hi Hui Hcond.
      apply lookup_app_Some in Hi as [Hi|[Hge Hi]].
      * apply (Hdone i e' u Hi Hui). unfold waiting in *. simpl in Hcond.
        destruct Hcond as [Hout|Hin]; [|by right].
        left. intros Hw. apply Hout. rewrite !elem_of_app in *. tauto.
      * apply list_lookup_singleton_Some in Hi as [Hi <-].
        exfalso. destruct Hcond as [Hout|[Hin _]].
        -- apply Hout. unfold waiting. simpl. rewrite !elem_of_app.
           left. right. by apply list_elem_of_singleton.
        -- destruct (bk_pending _ _ Hbk e) as [_ Hp].
           { unfold waiting. apply elem_of_app. by right. }
           apply lookup_lt_Some in Hp. simpl in Hp. lia.
Qed.

End Rows.

Lemma count_matching_rows p rs :
  count_matching p (Row <$> rs) = Some (rows_where p rs).
Proof.
  unfold rows_where. induction rs as [|r rs IH]; [done|].
  rewrite fmap_cons. cbn [count_matching]. rewrite IH, filter_cons. simpl.
  destruct (p r); by case_decide.
Qed.

Lemma failure_rows_split rs :
  (rows_where (λ r, negb (is_str (code r) "SUCCESS") && negb (is_str (code r) "PENDING")) rs
   + rows_where (λ r, is_str (code r) "PENDING") rs)%nat
  = failure_count rs.
Proof.
  unfold rows_where, failure_count. induction rs as [|r rs IH]; [done|].
  rewrite !filter_cons.
  destruct (is_str (code r) "SUCCESS") eqn:Hs; destruct (is_str (code r) "PENDING") eqn:Hp;
    simpl; repeat case_decide; try done; simpl; try lia.
  apply is_str_spec in Hs, Hp. congruence.
Qed.

(** X8. On a queue with no task in flight and a ceiling of at least one,
    which no other call uses meanwhile,
    when the queue path returns, the hook's [results] state holds exactly
    the rows of the report, in input order, whatever rows it held before
    the call and in whatever order the tasks settled.  [getSuccessCount()]
    then equals the report's [successful]; [getFailureCount()] equals the
    report's [failed] less the rows whose upstream code is the string
    ['PENDING'], which the hook counts neither as success nor as failure. *)
Theorem results_state_matches_report env users attendanceId userCookies w :
  in_flight w = [] →
  1 ≤ concurrency (this w) →
  (2 * length users + timers w ≤ fuel env)%nat →
  ∃ report w',
    processQueueAttendance env users attendanceId userCookies w = Some (report, w') ∧
    results_state (log w') = Row <$> results report ∧
    getSuccessCount (results_state (log w')) = Some (count_success (results report)) ∧
    successful report = VNum (Z.of_nat (count_success (results report))) ∧
    (∃ f, getFailureCount (results_state (log w')) = Some f ∧
          failed report
          = VNum (Z.of_nat f
                  + Z.of_nat (rows_where (λ r, is_str (code r) "PENDING") (results report)))).
Proof.
  intros Hrest Hcap Hfuel.
  destruct (queue_run_invariant (shown env attendanceId userCookies users)
              env users attendanceId userCookies w Hrest Hcap Hfuel)
    as (w3 & es & Hrun & Htasks & Hinv
        & (rs & Hst & Hlen & Hlink & Htwo & Hdone) & Hw3 & _).
  - exists (pending_result <$> users). split; [|split; [by rewrite length_fmap|split; [|split]]].
    + unfold queue_start. simpl. rewrite !results_state_app. done.
    + intros i e Hi. by rewrite lookup_nil in Hi.
    + intros i u Hu. left. by rewrite list_lookup_fmap, Hu.
    + intros i e u Hi. by rewrite lookup_nil in Hi.
  - intros es index user x. apply add_shown.
  - intros es k x _. apply settle_shown.
  - intros es x _. apply fire_shown.
  - assert (Hes : length es = length users)
      by (by rewrite <- (length_fmap task), Htasks, length_imap).
    assert (Hrs : rs = imap (user_result env attendanceId userCookies) users).
    { apply list_eq. intros i. rewrite list_lookup_imap.
      destruct (users !! i) as [u|] eqn:Hu; simpl.
      - destruct (lookup_lt_is_Some_2 es i) as [e He].
        { rewrite Hes. by eapply lookup_lt_Some. }
        apply (Hdone i e u He Hu). left. rewrite Hw3. apply not_elem_of_nil.
      - apply lookup_ge_None. rewrite Hlen. by apply lookup_ge_None. }
    subst rs.
    assert (Hfinal : results_state
                       (log (emit (queue_epilogue
                                     (queue_report env attendanceId userCookies users)) w3))
                     = Row <$> imap (user_result env attendanceId userCookies) users).
    { simpl. by rewrite results_state_app, Hst. }
    eexists _, _. split; [exact Hrun|]. rewrite Hfinal.
    split; [done|]. split; [apply count_matching_rows|]. split; [done|].
    eexists. split; [apply count_matching_rows|]. simpl. f_equal.
    pose proof (failure_rows_split (imap (user_result env attendanceId userCookies) users)).
    pose proof (success_failure_count (imap (user_result env attendanceId userCookies) users)).
    lia.
Qed.

Lemma results_state_matches_report_witness :
  ∃ report w',
    processQueueAttendance roomy_env six_users "QR-1" six_cookies (boot hook_queue)
      = Some (report, w') ∧
    results_state (log w') = Row <$> results report ∧
    getSuccessCount (results_state (log w')) = Some (count_success (results report)) ∧
    successful report = VNum (Z.of_nat (count_success (results report))) ∧
    (∃ f, getFailureCount (results_state (log w')) = Some f ∧
          failed report
          = VNum (Z.of_nat f
                  + Z.of_nat (rows_where (λ r, is_str (code r) "PENDING") (results report)))).
Proof.
  apply (results_state_matches_report roomy_env six_users "QR-1" six_cookies
           (boot hook_queue)); [reflexivity | simpl; lia | simpl; lia].
Defined.

(** ** The busy flag *)






(** ** Pacing *)

Lemma add_tasks_burst env attendanceId userCookies users : ∀ index x,
  counted x →
  queue (this x) = [] ∨ concurrency (this x) ≤ running (this x) →
  ∃ es x',
    add_tasks env attendanceId userCookies index users x = (promise <$> es, x') ∧
    task <$> es = imap (λ i u, user_task env attendanceId userCookies (index + i) u) users ∧
    in_flight x' = in_flight x
                   ++ take (burst (concurrency (this x)) (running (this x)) (length users)) es ∧
    queue (this x') = queue (this x)
                      ++ drop (burst (concurrency (this x)) (running (this x)) (length users)) es.
Proof.
  induction users as [|user users IH]; intros index x Hcnt Hb.
  - exists [], x. simpl. rewrite take_nil, drop_nil, !app_nil_r. done.
  - change (add_tasks env attendanceId userCookies index (user :: users) x)
      with (let '(p, x1) := add (user_task env attendanceId userCookies index user) x in
            let '(ps, x2) := add_tasks env attendanceId userCookies (S index) users x1 in
            (p :: ps, x2)).
    unfold add.
    set (e := {| task := user_task env attendanceId userCookies index user;
                 promise := length (promises x) |}).
    match goal with |- context [process ?y] => set (x0 := y) end.
    assert (Htasks : ∀ es', task <$> es'
              = imap (λ i u, user_task env attendanceId userCookies (S index + i) u) users →
              task <$> (e :: es')
              = imap (λ i u, user_task env attendanceId userCookies (index + i) u)
                     (user :: users)).
    { intros es' H. rewrite fmap_cons, H. simpl. rewrite Nat.add_0_r. f_equal.
      apply imap_ext. intros i u _. simpl. f_equal. lia. }
    destruct (process_cases x0) as [[Heq [Hfull|Hq]]|(e0 & rest & Hq & Hlt & Heq)].
    + rewrite Heq. simpl in Hfull.
      destruct (IH (S index) x0) as (es' & x' & Hrun & Ht & Hin & Hqu); [done|by right|].
      rewrite Hrun. exists (e :: es'), x'. split; [done|]. split; [by apply Htasks|].
      rewrite Hin, Hqu. unfold burst, x0. simpl length. simpl.
      replace (Z.to_nat (Z.min (concurrency (this x) - running (this x))
                               (Z.of_nat (length users)))) with 0%nat by lia.
      replace (Z.to_nat (Z.min (concurrency (this x) - running (this x))
                               (Z.of_nat (S (length users))))) with 0%nat by lia.
      simpl. split; [done|]. by rewrite <- (assoc_L (++)).
    + simpl in Hq. by destruct (queue (this x)).
    + simpl in Hq, Hlt. destruct Hb as [Hempty|Hfull]; [|lia].
      rewrite Hempty in Hq. simpl in Hq. injection Hq as <- <-.
      rewrite Heq.
      match goal with |- context [add_tasks _ _ _ _ _ ?y] => set (x1 := y) end.
      destruct (IH (S index) x1) as (es' & x' & Hrun & Ht & Hin & Hqu).
      * unfold counted, x1 in *. simpl. rewrite length_app. simpl. lia.
      * by left.
      * rewrite Hrun. exists (e :: es'), x'. split; [done|]. split; [by apply Htasks|].
        rewrite Hin, Hqu, Hempty. unfold burst, x1. simpl length. simpl.
        replace (Z.to_nat (Z.min (concurrency (this x) - running (this x))
                                 (Z.of_nat (S (length users)))))
          with (S (Z.to_nat (Z.min (concurrency (this x) - (running (this x) + 1))
                                   (Z.of_nat (length users))))) by lia.
        simpl. split; [by rewrite <- (assoc_L (++))|done].
Qed.

(** X10. The queue paces its tasks.  When the queue path adds its [n]
    tasks to a queue at rest it starts the first [min(concurrency, n)] of
    them at once, in input order, and queues the others in input order.
    Afterwards the continuation of a settled task never starts a task (it
    leaves the queue as it is), and a timer starts at most the one task at
    the head of the queue. *)
Theorem queue_paces_its_tasks env users attendanceId userCookies w :
  in_flight w = [] →
  (∃ es x,
     add_tasks env attendanceId userCookies 0 users (queue_start users w)
       = (promise <$> es, x) ∧
     task <$> es = imap (user_task env attendanceId userCookies) users ∧
     in_flight x = take (burst (concurrency (this w)) 0 (length users)) es ∧
     queue (this x) = drop (burst (concurrency (this w)) 0 (length users)) es) ∧
  (∀ k y, queue (this (settle k y)) = queue (this y) ∧
          ∀ e, e ∈ in_flight (settle k y) → e ∈ in_flight y) ∧
  (∀ y, (queue (this (fire y)) = queue (this y) ∧ in_flight (fire y) = in_flight y) ∨
        ∃ e, queue (this y) = e :: queue (this (fire y)) ∧
             in_flight (fire y) = in_flight y ++ [e]).
Proof.
  intros Hrest. split; [|split].
  - destruct (add_tasks_burst env attendanceId userCookies users 0 (queue_start users w))
      as (es & x & Hrun & Htasks & Hin & Hq).
    + unfold counted. simpl. by rewrite Hrest.
    + by left.
    + exists es, x. split; [done|]. split; [done|].
      simpl in Hin, Hq. rewrite Hrest in Hin. by simpl in Hin.
  - intros k y. split; [apply settle_queue|]. intros e. apply settle_in_flight.
  - intros y. unfold fire. destruct (timers y) as [|t]; [by left|].
    match goal with |- context [process ?z] => set (y1 := z) end.
    destruct (process_cases y1) as [[-> _]|(e & rest & Hq & _ & ->)]; [by left|].
    right. exists e. simpl. by rewrite <- Hq.
Qed.

Lemma queue_paces_its_tasks_witness :
  (∃ es x,
     add_tasks roomy_env "QR-1" six_cookies 0 six_users (queue_start six_users (boot hook_queue))
       = (promise <$> es, x) ∧
     task <$> es = imap (user_task roomy_env "QR-1" six_cookies) six_users ∧
     in_flight x = take (burst (concurrency (this (boot hook_queue))) 0 (length six_users)) es ∧
     queue (this x) = drop (burst (concurrency (this (boot hook_queue))) 0 (length six_users)) es) ∧
  (∀ k y, queue (this (settle k y)) = queue (this y) ∧
          ∀ e, e ∈ in_flight (settle k y) → e ∈ in_flight y) ∧
  (∀ y, (queue (this (fire y)) = queue (this y) ∧ in_flight (fire y) = in_flight y) ∨
        ∃ e, queue (this y) = e :: queue (this (fire y)) ∧
             in_flight (fire y) = in_flight y ++ [e]).
Proof.
  apply (queue_paces_its_tasks roomy_env six_users "QR-1" six_cookies (boot hook_queue)).
  reflexivity.
Defined.

(** ** The waves of the batch endpoint *)

Lemma batch_loop_spec {A} (users : list A) : ∀ rounds i,
  (length users - i ≤ rounds)%nat →
  ∃ steps,
    batch_loop rounds users i = Some steps ∧
    concat (waves steps) = drop i users ∧
    Forall (λ b, 1 ≤ length b ≤ batchSize)%nat (waves steps) ∧
    length (waves steps) = ((length users - i + 2) / 3)%nat ∧
    length (pauses steps) = (length (waves steps) - 1)%nat ∧
    Forall (λ ms, ms = delayBetweenBatches) (pauses steps) ∧
    (∀ ms, last steps ≠ Some (Pause ms)).
Proof.
  intros rounds. induction rounds as [|rounds IH]; intros i Hfuel; cbn [batch_loop];
    destruct (i <? length users)%nat eqn:Hi;
    try (apply Nat.ltb_ge in Hi; exists []; simpl; rewrite drop_ge by lia;
         replace (length users - i)%nat with 0%nat by lia;
         by repeat split).
  - apply Nat.ltb_lt in Hi. lia.
  - apply Nat.ltb_lt in Hi.
    destruct (IH (i + batchSize)%nat ltac:(unfold batchSize; lia))
      as (steps & -> & Hcat & Hsizes & Hwaves & Hpauses & Hms & Hlast).
    unfold batchSize in *.
    eexists. split; [reflexivity|].
    assert (Hw : ∀ pause : list (ServerStep A), waves pause = [] →
              waves (Wave (take 3 (drop i users)) :: pause ++ steps)
              = take 3 (drop i users) :: waves steps).
    { intros pause Hp. unfold waves in *. simpl. by rewrite omap_app, Hp. }
    assert (Hdiv : ((length users - i + 2) / 3)%nat
                   = S ((length users - (i + 3) + 2) / 3)).
    { destruct (decide (i + 3 ≤ length users)%nat) as [Hle|Hgt].
      - replace (length users - i + 2)%nat
          with (1 * 3 + (length users - (i + 3) + 2))%nat by lia.
        rewrite Nat.div_add_l by lia. lia.
      - replace (length users - (i + 3))%nat with 0%nat by lia.
        assert (Hm : (length users - i = 1 ∨ length users - i = 2)%nat) by lia.
        destruct Hm as [-> | ->]; reflexivity. }
    rewrite Hdiv, <- Hwaves. clear Hdiv.
    assert (Hzero : (length users ≤ i + 3)%nat → waves steps = []).
    { intros Hle. apply length_zero_iff_nil. rewrite Hwaves.
      replace (length users - (i + 3))%nat with 0%nat by lia. done. }
    assert (Hpos : (i + 3 < length users)%nat → (1 ≤ length (waves steps))%nat).
    { intros Hlt. rewrite Hwaves.
      replace (length users - (i + 3) + 2)%nat
        with (1 * 3 + (length users - (i + 3) - 1))%nat by lia.
      rewrite Nat.div_add_l by lia. lia. }
    clear Hwaves.
    destruct (i + 3 <? length users)%nat eqn:Hmore.
    + apply Nat.ltb_lt in Hmore. specialize (Hpos Hmore).
      rewrite (Hw [Pause delayBetweenBatches]) by done.
      simpl. rewrite Hcat, <- drop_drop, take_drop.
      split; [done|]. split.
      { constructor; [|done]. rewrite length_take, length_drop. lia. }
      split; [done|]. split; [lia|].
      split; [by constructor|].
      intros ms. destruct steps as [|s steps]; [|apply (Hlast ms)].
      simpl in Hpos. lia.
    + apply Nat.ltb_ge in Hmore. specialize (Hzero Hmore).
      rewrite (Hw []) by done.
      simpl. rewrite Hcat, <- drop_drop, take_drop.
      split; [done|]. split.
      { constructor; [|done]. rewrite length_take, length_drop. lia. }
      split; [done|].
      split; [rewrite Hzero in *; simpl in *; lia|].
      split; [done|].
      intros ms. destruct steps as [|s steps]; [done|apply (Hlast ms)].
Qed.

(** X11. The batch endpoint's loop ends after at most [users.length]
    rounds.  Its waves, put end to end, are the users in order (nobody is
    skipped or submitted twice); every wave holds one to three users; there
    are [ceil(n / 3)] waves with a pause of 500 ms between consecutive waves
    and none after the last. *)
Theorem server_waves_cover_users {A} (users : list A) :
  ∃ steps,
    batch_loop (length users) users 0 = Some steps ∧
    concat (waves steps) = users ∧
    Forall (λ b, 1 ≤ length b ≤ batchSize)%nat (waves steps) ∧
    length (waves steps) = ((length users + 2) / 3)%nat ∧
    length (pauses steps) = (length (waves steps) - 1)%nat ∧
    Forall (λ ms, ms = delayBetweenBatches) (pauses steps) ∧
    (∀ ms, last steps ≠ Some (Pause ms)).
Proof.
  destruct (batch_loop_spec users (length users) 0 ltac:(lia))
    as (steps & H1 & H2 & H3 & H4 & H5 & H6 & H7).
  exists steps. rewrite Nat.sub_0_r in H4. by repeat split.
Qed.

(** ** What a row says *)

Lemma attendance_status_agrees user index attendanceId userCookies reply r :
  t_outcome (attendanceTask user index attendanceId userCookies reply) = Fulfilled r →
  (status r = "✅ Marked Present" ↔ code r = VStr "SUCCESS").
Proof.
  unfold attendanceTask. destruct (negb _); [intros [= <-]; by split|].
  destruct reply as [|body]; [intros [= <-]; by split|].
  intros [= <-]. simpl.
  destruct (is_str _ "SUCCESS") eqn:Hs.
  - apply is_str_spec in Hs. by rewrite Hs.
  - split.
    + destruct (is_str _ "ATTENDANCE_NOT_VALID"); intros H; discriminate H.
    + intros Hc. rewrite Hc in Hs. done.
Qed.

(** X12. In the report of the queue path a row reads ['✅ Marked Present']
    exactly when its code is ['SUCCESS'], that is exactly when it is counted
    in [successful]; and a user whose request is answered with a body that
    does not parse gets the row ['⚠️ Error'] with no code, which counts as
    failed. *)
Theorem row_status_agrees_with_count env users attendanceId userCookies w :
  in_flight w = [] →
  1 ≤ concurrency (this w) →
  (2 * length users + timers w ≤ fuel env)%nat →
  ∃ report w',
    processQueueAttendance env users attendanceId userCookies w = Some (report, w') ∧
    Forall (λ r, status r = "✅ Marked Present" ↔ code r = VStr "SUCCESS") (results report) ∧
    (∀ index user,
       users !! index = Some user →
       cookie_absent userCookies index = false →
       replies env index = Response None →
       results report !! index
       = Some {| rname := VStr (name user); status := "⚠️ Error"; code := VUndefined |}).
Proof.
  intros Hrest Hcap Hfuel.
  destruct (processQueueAttendance_returns env users attendanceId userCookies w
              Hrest Hcap Hfuel) as (w' & _ & _ & Hrun & _).
  eexists _, w'. split; [exact Hrun|]. simpl. split.
  - apply Forall_forall. intros r Hr. apply list_elem_of_lookup in Hr as [i Hi].
    rewrite list_lookup_imap in Hi.
    destruct (users !! i) as [user|]; [|done]. injection Hi as <-.
    unfold user_result.
    destruct (user_task_plain env attendanceId userCookies i user) as (_ & _ & r & Hr).
    rewrite Hr. simpl. by eapply attendance_status_agrees.
  - intros index user Hu Hpresent Hreply.
    rewrite list_lookup_imap, Hu. simpl. f_equal.
    unfold user_result, user_task, attendanceTask. unfold cookie_absent in Hpresent.
    by rewrite Hpresent, Hreply.
Qed.

Lemma row_status_agrees_with_count_witness :
  ∃ report w',
    processQueueAttendance roomy_env six_users "QR-1" six_cookies (boot hook_queue)
      = Some (report, w') ∧
    Forall (λ r, status r = "✅ Marked Present" ↔ code r = VStr "SUCCESS") (results report) ∧
    (∀ index user,
       six_users !! index = Some user →
       cookie_absent six_cookies index = false →
       replies roomy_env index = Response None →
       results report !! index
       = Some {| rname := VStr (name user); status := "⚠️ Error"; code := VUndefined |}).
Proof.
  apply (row_status_agrees_with_count roomy_env six_users "QR-1" six_cookies (boot hook_queue));
    [reflexivity | simpl; lia | simpl; lia].
Defined.

(** ** Two invocations at once *)

Lemma exec_keeps_pending p tr : ∀ x,
  addressed x →
  promises x !! p = Some None →
  p ∉ promise <$> waiting x →
  addressed (exec tr x) ∧
  promises (exec tr x) !! p = Some None ∧
  p ∉ promise <$> waiting (exec tr x).
Proof.
  induction tr as [|ev tr IH]; intros x Ha Hp Hf; simpl; [done|].
  destruct (step_keeps_pending p ev x Ha Hp Hf) as (Ha' & Hp' & Hf').
  by apply IH.
Qed.

Lemma turn_keeps_pending p c x :
  addressed x →
  promises x !! p = Some None →
  p ∉ promise <$> waiting x →
  addressed (turn c x) ∧
  promises (turn c x) !! p = Some None ∧
  p ∉ promise <$> waiting (turn c x).
Proof.
  intros Ha Hp Hf.
  destruct (turn_cases c x) as [(_ & _ & ->)|[(k & _ & ->)|(_ & ->)]]; [done|..].
  - exact (step_keeps_pending p (EvSettle k) x Ha Hp Hf).
  - exact (step_keeps_pending p EvTimer x Ha Hp Hf).
Qed.

(** Waiting for a promise that no queued or started task holds never
    ends. *)
Lemma await_never_settles p tasks sched fuel : ∀ tick x,
  p ∈ tasks →
  addressed x →
  promises x !! p = Some None →
  p ∉ promise <$> waiting x →
  await_allSettled fuel sched tick tasks x = None.
Proof.
  induction fuel as [|fuel IH]; intros tick x Hin Ha Hp Hf; simpl.
  - replace (allSettled tasks x) with (@None (list (Settled Result))); [done|].
    symmetry. apply mapM_None_2, Exists_exists. exists p. by rewrite Hp.
  - replace (allSettled tasks x) with (@None (list (Settled Result))).
    + destruct (turn_keeps_pending p (sched tick) x Ha Hp Hf) as (Ha' & Hp' & Hf').
      by apply IH.
    + symmetry. apply mapM_None_2, Exists_exists. exists p. by rewrite Hp.
Qed.

(** C1. A task is dropped when two invocations of the queue path overlap.
    A first call for four users starts three tasks and queues the fourth,
    and waits.  A second call for four users then returns its report of
    four rows; the requests sent by then are three of the first call and
    four of the second, so the fourth request of the first call never left.  The promise of that fourth task is pending when
    the second call returns and stays pending whatever happens afterwards,
    so the [Promise.allSettled] of the first call never resolves, however
    long it waits and under every order of resumptions: the first call
    returns no report and its fourth user gets no row. *)
Lemma overlapping_call_drops_task :
  suspended_call.1 = [0; 1; 2; 3]%nat ∧
  promise <$> in_flight suspended_call.2 = [0; 1; 2]%nat ∧
  promise <$> queue (this suspended_call.2) = [3%nat] ∧
  ∃ report w2,
    overlapping_call = Some (report, w2) ∧
    length (results report) = 4%nat ∧
    sent (log w2)
    = [(0, VStr "QR-1"); (1, VStr "QR-1"); (2, VStr "QR-1");
       (0, VStr "QR-2"); (1, VStr "QR-2"); (2, VStr "QR-2"); (3, VStr "QR-2")]%nat ∧
    promises w2 !! 3%nat = Some None ∧
    ∀ tr rounds order tick,
      promises (exec tr w2) !! 3%nat = Some None ∧
      await_allSettled rounds order tick suspended_call.1 (exec tr w2) = None.
Proof.
  split; [vm_compute; reflexivity|]. split; [vm_compute; reflexivity|].
  split; [vm_compute; reflexivity|].
  eexists _, _. split; [vm_compute; reflexivity|].
  match goal with |- context [sent (log ?w)] => set (w2 := w) end.
  assert (Hp : promises w2 !! 3%nat = Some None) by (vm_compute; reflexivity).
  assert (Hwait : waiting w2 = []) by (vm_compute; reflexivity).
  split; [vm_compute; reflexivity|].
  split; [vm_compute; reflexivity|].
  split; [exact Hp|].
  assert (Ha : addressed w2).
  { intros e He. rewrite Hwait in He. by apply elem_of_nil in He. }
  assert (Hf : 3%nat ∉ promise <$> waiting w2).
  { rewrite Hwait. apply not_elem_of_nil. }
  clearbody w2.
  intros tr rounds order tick.
  destruct (exec_keeps_pending 3 tr w2 Ha Hp Hf) as (Ha' & Hp' & Hf').
  split; [exact Hp'|].
  apply (await_never_settles 3); [|exact Ha'|exact Hp'|exact Hf'].
  vm_compute. do 3 right. left.
Qed.

(** C8. The completed count exceeds the total when two invocations of the
    queue path overlap.  The second call for four users, made while the
    three started tasks of the first are pending, returns; the snapshots it
    leaves are [(0, 4)], then [(1, 4)], [(1, 3)], [(1, 2)], [(1, 1)],
    [(1, 0)], [(1, -1)], [(1, -2)]: seven reports for its four tasks, the
    last three with [completed] above [total], and the queue's counter ends
    at [-3]. *)
Lemma stale_tasks_skew_progress :
  ∃ report w2,
    overlapping_call = Some (report, w2) ∧
    snapshots (drop (length (log suspended_call.2)) (log w2))
    = [(VNum 0, VNum 4); (VNum 1, VNum 4); (VNum 1, VNum 3); (VNum 1, VNum 2);
       (VNum 1, VNum 1); (VNum 1, VNum 0); (VNum 1, VNum (-1)); (VNum 1, VNum (-2))] ∧
    take (length (log suspended_call.2)) (log w2) = log suspended_call.2 ∧
    length (results report) = 4%nat ∧
    running (this w2) = -3.
Proof.
  eexists _, _. split; [vm_compute; reflexivity|].
  split; [vm_compute; reflexivity|].
  split; [vm_compute; reflexivity|].
  split; [vm_compute; reflexivity|].
  vm_compute. reflexivity.
Qed.
